(** * Authoritative server core of the plinko game: [ServerEngine]

    A shallow embedding of [src/server/serverEngine.js] and the properties
    its specification states about the tick loop, collision scoring, entity
    lifecycle, win detection and snapshots.

    The engine object, the domain objects it shares with the physics engine
    (pegs and chips reached through [body.parentObject]) and the pieces of
    the JavaScript runtime the class talks to (interval timers, the
    [setImmediate] queue, socket output) are explicit components of one
    state record; every method is a function on that record. *)

From stdpp Require Import gmap strings list fin_maps pretty.
From Stdlib Require Import QArith Qround Qabs.

Local Open Scope Z_scope.

(** ** JavaScript values *)

(** The values an [ownerId] takes: pegs start with [null], the wire
    contract for [newChip] carries integers, and a property an object does
    not have reads as [undefined].  Integer-valued numbers are kept as [Z];
    quantities that need not be integral (clock readings, coordinates,
    angles) are rationals standing in for doubles. *)
Inductive value : Type :=
  | VUndefined
  | VNull
  | VNum (n : Z).

Global Instance value_eq_dec : EqDecision value.
Proof. solve_decision. Defined.

(** [if (v)]: [undefined], [null] and the number [0] are falsy. *)
Definition truthy (v : value) : bool :=
  match v with
  | VNum n => negb (n =? 0)
  | _ => false
  end.

(** [a === b] on these primitives. *)
Definition strict_eq (a b : value) : bool := bool_decide (a = b).

(** [String(v)], also the property key [v] is converted to in [obj[v]]. *)
Definition String_of (v : value) : string :=
  match v with
  | VUndefined => "undefined"
  | VNull => "null"
  | VNum n => pretty n
  end.

(** Results of [+= 1] and [-= 1] on a score slot: an integer, or [NaN] once
    the slot was read as [undefined]. *)
Inductive number : Type :=
  | Int (n : Z)
  | NaN.

Global Instance number_eq_dec : EqDecision number.
Proof. solve_decision. Defined.

(** [slot + 1] and [slot - 1], where a missing slot reads as [undefined]. *)
Definition plus_one (slot : option number) : number :=
  match slot with
  | Some (Int n) => Int (n + 1)
  | _ => NaN
  end.

Definition minus_one (slot : option number) : number :=
  match slot with
  | Some (Int n) => Int (n - 1)
  | _ => NaN
  end.

(** [sc >= target]; every comparison with [NaN] is false. *)
Definition number_ge (sc : number) (target : Z) : bool :=
  match sc with
  | Int n => target <=? n
  | NaN => false
  end.

(** A timestamp field holds [undefined] or a double.  [NotANumber] stands
    for [undefined] and [NaN], which behave alike under [||], [>] and [+=];
    a finite double is the rational it denotes (the two zeros are not
    told apart, nothing here divides). *)
Inductive time : Type :=
  | NotANumber
  | Finite (q : Q)
  | Infinity (positive : bool).

(** [2^e] for an exponent of either sign. *)
Definition pow2 (e : Z) : Q :=
  if 0 <=? e then inject_Z (2 ^ e) else (1 / inject_Z (2 ^ (- e)))%Q.

(** The exponent of the leading binary digit of a positive rational. *)
Definition Qlog2 (q : Q) : Z :=
  let k := Z.log2 (Qnum q) - Z.log2 (Zpos (Qden q)) in
  if Qle_bool (pow2 k) q then k else k - 1.

(** The nearest integer, a tie going to the even one. *)
Definition Qround_even (q : Q) : Z :=
  let n := Qfloor q in
  match (q - inject_Z n ?= 1 # 2)%Q with
  | Lt => n
  | Gt => n + 1
  | Eq => if Z.even n then n else n + 1
  end.

(** The double an exact result is rounded to (IEEE 754 binary64, round to
    nearest, ties to even): 53 significant bits, the last of them worth no
    less than [2^-1074], and infinity from [2^1024] on. *)
Definition round64 (q : Q) : time :=
  if Qeq_bool q 0 then Finite 0
  else
    let e := Z.max (Qlog2 (Qabs q) - 52) (-1074) in
    let r := (inject_Z (Qround_even (Qabs q / pow2 e)) * pow2 e)%Q in
    if Qle_bool (pow2 1024) r then Infinity (Qle_bool 0 q)
    else Finite (Qred (if Qle_bool 0 q then r else - r)).

(** [t || now] tests [t]: [undefined], [NaN] and zero are falsy. *)
Definition time_truthy (t : time) : bool :=
  match t with
  | NotANumber => false
  | Finite q => negb (Qeq_bool q 0)
  | Infinity _ => true
  end.

(** [now > t] for a finite reading [now] of the clock. *)
Definition time_gt (now : Q) (t : time) : bool :=
  match t with
  | NotANumber => false
  | Finite q => negb (Qle_bool now q)
  | Infinity positive => negb positive
  end.

(** [t += d] for a finite double [d]: the exact sum, rounded. *)
Definition time_add (t : time) (d : Q) : time :=
  match t with
  | Finite q => round64 (q + d)
  | _ => t
  end.

(** ** Objects, bodies and messages *)

Abbreviation loc := nat (only parsing).
Abbreviation handle := nat (only parsing).
Abbreviation timer := nat (only parsing).
Abbreviation socket := nat (only parsing).

(** A [Peg] or [Chip] instance: the fields the server reads or writes.
    References are addresses in the object store; the default object only
    makes a lookup total, since a reference the program holds is always
    live. *)
Record Obj : Type := {
  oid : Z;
  ownerId : value;
  body : handle
}.

Global Instance Obj_inhabited : Inhabited Obj :=
  populate {| oid := 0; ownerId := VUndefined; body := 0%nat |}.

(** What the physics engine keeps per body for the snapshot. *)
Record Pose : Type := {
  position_x : Q;
  position_y : Q;
  angle : Q
}.

Global Instance Pose_inhabited : Inhabited Pose :=
  populate {| position_x := 0; position_y := 0; angle := 0 |}.

(** A body as a collision pair hands it to the handler: its label and the
    back-reference to the domain object that owns it.  The pairs are the
    physics engine's to choose, so a body is any label with any
    reference. *)
Record Body : Type := {
  label : string;
  parentObject : loc
}.

(** Modelled from the spec: the [Input] class of [server/inputBuffer.js]
    is not among the sources; an input descriptor is [{id, ownerId, x, y}]
    as supplied by a session. *)
Record Input : Type := {
  input_id : Z;
  input_ownerId : value;
  input_x : Q;
  input_y : Q
}.

Record ChipInfo : Type := {
  chip_id : Z;
  chip_ownerId : value;
  chip_x : Q;
  chip_y : Q;
  chip_angle : Q
}.

Record PegInfo : Type := {
  peg_id : Z;
  peg_ownerId : value
}.

(** The object [generateSnapshot] returns.  A JavaScript array may have
    holes and [map] keeps them, hence the [option] in [snap_pegs]. *)
Record Snapshot : Type := {
  snap_chips : list ChipInfo;
  snap_pegs : list (option PegInfo);
  snap_score : gmap string number;
  snap_winner : bool;
  snap_targetScore : Z
}.

Inductive Message : Type :=
  | CONNECTION_ESTABLISHED (playerId : nat)
  | PONG_MESSAGE (serverTime : Q)
  | SERVER_FRAME (frame : Z)
  | SNAPSHOT (frame : Z) (encodedSnapshot : Snapshot)
      (score : gmap string number) (targetScore : Z).

(** What one [Engine.update] does that the server can see: the new poses
    of the bodies it moved and the batch of collision pairs it reports. *)
Record EngineOutcome : Type := {
  out_kinematics : gmap handle Pose;
  out_pairs : list (Body * Body)
}.

(** ** The engine state *)

(** The fields of [this], then the physics world ([this.engine]), the
    object store, and the runtime: active interval timers, pending
    [setImmediate] callbacks, the [playerId] counter captured by the
    connection handler, and the messages emitted so far.  [loop] is read by
    [stopGame] and assigned nowhere. *)
Record ServerEngine : Type := {
  knownPlayers : list socket;
  frame : Z;
  inputBuffer : list Input;
  chips : gmap string loc;
  pegs : list (option loc);
  winner : bool;
  targetScore : Z;
  targetScoreInterval : bool;
  score : gmap string number;
  nextTimestep : time;
  loop : option timer;
  world : gset handle;
  kinematics : gmap handle Pose;
  heap : gmap loc Obj;
  nextRef : nat;
  intervals : list timer;
  immediates : nat;
  playerId : nat;
  outbox : list (socket * Message)
}.

Definition set_knownPlayers (v : list socket) (s : ServerEngine) : ServerEngine :=
  Build_ServerEngine v (frame s) (inputBuffer s) (chips s) (pegs s) (winner s)
    (targetScore s) (targetScoreInterval s) (score s) (nextTimestep s)
    (loop s) (world s) (kinematics s) (heap s) (nextRef s) (intervals s)
    (immediates s) (playerId s) (outbox s).

Definition set_frame (v : Z) (s : ServerEngine) : ServerEngine :=
  Build_ServerEngine (knownPlayers s) v (inputBuffer s) (chips s) (pegs s)
    (winner s) (targetScore s) (targetScoreInterval s) (score s)
    (nextTimestep s) (loop s) (world s) (kinematics s) (heap s) (nextRef s)
    (intervals s) (immediates s) (playerId s) (outbox s).

Definition set_inputBuffer (v : list Input) (s : ServerEngine) : ServerEngine :=
  Build_ServerEngine (knownPlayers s) (frame s) v (chips s) (pegs s)
    (winner s) (targetScore s) (targetScoreInterval s) (score s)
    (nextTimestep s) (loop s) (world s) (kinematics s) (heap s) (nextRef s)
    (intervals s) (immediates s) (playerId s) (outbox s).

Definition set_chips (v : gmap string loc) (s : ServerEngine) : ServerEngine :=
  Build_ServerEngine (knownPlayers s) (frame s) (inputBuffer s) v (pegs s)
    (winner s) (targetScore s) (targetScoreInterval s) (score s)
    (nextTimestep s) (loop s) (world s) (kinematics s) (heap s) (nextRef s)
    (intervals s) (immediates s) (playerId s) (outbox s).

Definition set_pegs (v : list (option loc)) (s : ServerEngine) : ServerEngine :=
  Build_ServerEngine (knownPlayers s) (frame s) (inputBuffer s) (chips s) v
    (winner s) (targetScore s) (targetScoreInterval s) (score s)
    (nextTimestep s) (loop s) (world s) (kinematics s) (heap s) (nextRef s)
    (intervals s) (immediates s) (playerId s) (outbox s).

Definition set_winner (v : bool) (s : ServerEngine) : ServerEngine :=
  Build_ServerEngine (knownPlayers s) (frame s) (inputBuffer s) (chips s)
    (pegs s) v (targetScore s) (targetScoreInterval s) (score s)
    (nextTimestep s) (loop s) (world s) (kinematics s) (heap s) (nextRef s)
    (intervals s) (immediates s) (playerId s) (outbox s).

Definition set_targetScore (v : Z) (s : ServerEngine) : ServerEngine :=
  Build_ServerEngine (knownPlayers s) (frame s) (inputBuffer s) (chips s)
    (pegs s) (winner s) v (targetScoreInterval s) (score s) (nextTimestep s)
    (loop s) (world s) (kinematics s) (heap s) (nextRef s) (intervals s)
    (immediates s) (playerId s) (outbox s).

Definition set_targetScoreInterval (v : bool) (s : ServerEngine) : ServerEngine :=
  Build_ServerEngine (knownPlayers s) (frame s) (inputBuffer s) (chips s)
    (pegs s) (winner s) (targetScore s) v (score s) (nextTimestep s) (loop s)
    (world s) (kinematics s) (heap s) (nextRef s) (intervals s) (immediates s)
    (playerId s) (outbox s).

Definition set_score (v : gmap string number) (s : ServerEngine) : ServerEngine :=
  Build_ServerEngine (knownPlayers s) (frame s) (inputBuffer s) (chips s)
    (pegs s) (winner s) (targetScore s) (targetScoreInterval s) v
    (nextTimestep s) (loop s) (world s) (kinematics s) (heap s) (nextRef s)
    (intervals s) (immediates s) (playerId s) (outbox s).

Definition set_nextTimestep (v : time) (s : ServerEngine) : ServerEngine :=
  Build_ServerEngine (knownPlayers s) (frame s) (inputBuffer s) (chips s)
    (pegs s) (winner s) (targetScore s) (targetScoreInterval s) (score s) v
    (loop s) (world s) (kinematics s) (heap s) (nextRef s) (intervals s)
    (immediates s) (playerId s) (outbox s).

Definition set_world (v : gset handle) (s : ServerEngine) : ServerEngine :=
  Build_ServerEngine (knownPlayers s) (frame s) (inputBuffer s) (chips s)
    (pegs s) (winner s) (targetScore s) (targetScoreInterval s) (score s)
    (nextTimestep s) (loop s) v (kinematics s) (heap s) (nextRef s)
    (intervals s) (immediates s) (playerId s) (outbox s).

Definition set_kinematics (v : gmap handle Pose) (s : ServerEngine) : ServerEngine :=
  Build_ServerEngine (knownPlayers s) (frame s) (inputBuffer s) (chips s)
    (pegs s) (winner s) (targetScore s) (targetScoreInterval s) (score s)
    (nextTimestep s) (loop s) (world s) v (heap s) (nextRef s) (intervals s)
    (immediates s) (playerId s) (outbox s).

Definition set_heap (v : gmap loc Obj) (s : ServerEngine) : ServerEngine :=
  Build_ServerEngine (knownPlayers s) (frame s) (inputBuffer s) (chips s)
    (pegs s) (winner s) (targetScore s) (targetScoreInterval s) (score s)
    (nextTimestep s) (loop s) (world s) (kinematics s) v (nextRef s)
    (intervals s) (immediates s) (playerId s) (outbox s).

Definition set_nextRef (v : nat) (s : ServerEngine) : ServerEngine :=
  Build_ServerEngine (knownPlayers s) (frame s) (inputBuffer s) (chips s)
    (pegs s) (winner s) (targetScore s) (targetScoreInterval s) (score s)
    (nextTimestep s) (loop s) (world s) (kinematics s) (heap s) v
    (intervals s) (immediates s) (playerId s) (outbox s).

Definition set_intervals (v : list timer) (s : ServerEngine) : ServerEngine :=
  Build_ServerEngine (knownPlayers s) (frame s) (inputBuffer s) (chips s)
    (pegs s) (winner s) (targetScore s) (targetScoreInterval s) (score s)
    (nextTimestep s) (loop s) (world s) (kinematics s) (heap s) (nextRef s) v
    (immediates s) (playerId s) (outbox s).

Definition set_immediates (v : nat) (s : ServerEngine) : ServerEngine :=
  Build_ServerEngine (knownPlayers s) (frame s) (inputBuffer s) (chips s)
    (pegs s) (winner s) (targetScore s) (targetScoreInterval s) (score s)
    (nextTimestep s) (loop s) (world s) (kinematics s) (heap s) (nextRef s)
    (intervals s) v (playerId s) (outbox s).

Definition set_playerId (v : nat) (s : ServerEngine) : ServerEngine :=
  Build_ServerEngine (knownPlayers s) (frame s) (inputBuffer s) (chips s)
    (pegs s) (winner s) (targetScore s) (targetScoreInterval s) (score s)
    (nextTimestep s) (loop s) (world s) (kinematics s) (heap s) (nextRef s)
    (intervals s) (immediates s) v (outbox s).

Definition set_outbox (v : list (socket * Message)) (s : ServerEngine) : ServerEngine :=
  Build_ServerEngine (knownPlayers s) (frame s) (inputBuffer s) (chips s)
    (pegs s) (winner s) (targetScore s) (targetScoreInterval s) (score s)
    (nextTimestep s) (loop s) (world s) (kinematics s) (heap s) (nextRef s)
    (intervals s) (immediates s) (playerId s) v.


(** ** Runtime and physics-engine primitives *)

(** [socket.emit(name, payload)] *)
Definition emit (sock : socket) (msg : Message) (s : ServerEngine) : ServerEngine :=
  set_outbox (outbox s ++ [(sock, msg)]) s.

(** [a[i] = v] on a JavaScript array: in range it replaces the element,
    past the end it extends the array, leaving holes in between. *)
Definition array_set {A : Type} (i : nat) (v : A) (a : list (option A)) : list (option A) :=
  if decide (i < length a)%nat then <[i := Some v]> a
  else a ++ replicate (i - length a) None ++ [Some v].

(** [setInterval(() => { this.targetScore -= 1 }, 5000)]: the only interval
    callback of the program, so an active timer is just its handle. *)
Definition setInterval (s : ServerEngine) : ServerEngine :=
  set_nextRef (S (nextRef s)) (set_intervals (intervals s ++ [nextRef s]) s).

(** [clearInterval(t)]; [clearInterval(undefined)] does nothing. *)
Definition clearInterval (t : option timer) (s : ServerEngine) : ServerEngine :=
  match t with
  | Some t => set_intervals (filter (λ t', t' ≠ t) (intervals s)) s
  | None => s
  end.

(** [setImmediate(this.startGame.bind(this))] *)
Definition setImmediate (s : ServerEngine) : ServerEngine :=
  set_immediates (S (immediates s)) s.

(** [World.add(world, body)] and [World.remove(world, body)] of the
    physics library. *)
Definition World_add (h : handle) (s : ServerEngine) : ServerEngine :=
  set_world ({[h]} ∪ world s) s.

Definition World_remove (h : handle) (s : ServerEngine) : ServerEngine :=
  set_world (world s ∖ {[h]}) s.

(** Modelled from the spec: the body classes ([shared/bodies/Peg], [Chip],
    [Wall], [Triangle]) are not among the sources.  Constructing a domain
    object creates its physics body at the given coordinates and the
    object itself, whose body refers back to it; pegs start unowned.  The
    result is the reference to the new object. *)
Definition new_Obj (i : Z) (owner : value) (x y : Q) (s : ServerEngine) : loc * ServerEngine :=
  let l := nextRef s in
  let h := S (nextRef s) in
  let s := set_nextRef (S (S (nextRef s))) s in
  let s := set_kinematics (<[h := {| position_x := x; position_y := y; angle := 0 |}]> (kinematics s)) s in
  (l, set_heap (<[l := {| oid := i; ownerId := owner; body := h |}]> (heap s)) s).

Definition new_Peg (i : Z) (x y : Q) (s : ServerEngine) : loc * ServerEngine :=
  new_Obj i VNull x y s.

Definition new_Chip (i : Z) (owner : value) (x y : Q) (s : ServerEngine) : loc * ServerEngine :=
  new_Obj i owner x y s.

(** [obj.addToEngine(world)] *)
Definition addToEngine (l : loc) (s : ServerEngine) : ServerEngine :=
  World_add (body (heap s !!! l)) s.

(** A wall, bucket wall or triangle: only its body matters here. *)
Definition new_static (s : ServerEngine) : ServerEngine :=
  World_add (nextRef s) (set_nextRef (S (nextRef s)) s).

(** Modelled from the spec: [server/serializer.js] is not among the
    sources; [encode] is an opaque capability that [decode] inverts, so the
    message keeps the structured value. *)
Definition Serializer_encode (snap : Snapshot) : Snapshot := snap.

(** ** The methods of [ServerEngine] *)

(** Modelled from the spec: the constants of [shared/constants] are not
    among the sources; the methods take them as parameters.  The numeric
    ones are doubles, like every clock reading. *)
Record Constants : Type := {
  TARGET_SCORE : Z;
  TIMESTEP : Q;
  ROWS : nat;
  COLS : nat;
  ROW_SPACING : Q;
  COL_SPACING : Q;
  VERTICAL_MARGIN : Q;
  HORIZONTAL_OFFSET : Q
}.

(** [constructor({ io })]; the fields [init] assigns are still unset. *)
Definition new_ServerEngine : ServerEngine :=
  {| knownPlayers := []; frame := 0; inputBuffer := []; chips := ∅; pegs := [];
     winner := false; targetScore := 0; targetScoreInterval := false;
     score := ∅; nextTimestep := NotANumber; loop := None; world := ∅;
     kinematics := ∅; heap := ∅; nextRef := 0; intervals := [];
     immediates := 0; playerId := 0; outbox := [] |}.

Definition incrementScore (chipOwner : value) (s : ServerEngine) : ServerEngine :=
  let key := String_of chipOwner in
  set_score (<[key := plus_one (score s !! key)]> (score s)) s.

Definition decrementScore (formerPegOwner : value) (s : ServerEngine) : ServerEngine :=
  let key := String_of formerPegOwner in
  set_score (<[key := minus_one (score s !! key)]> (score s)) s.

Definition updateScore (peg chip : Body) (s : ServerEngine) : ServerEngine :=
  let formerPegOwner := ownerId (heap s !!! parentObject peg) in
  let chipOwner := ownerId (heap s !!! parentObject chip) in
  if negb (strict_eq chipOwner formerPegOwner) then
    let s := incrementScore chipOwner s in
    if truthy formerPegOwner then decrementScore formerPegOwner s else s
  else s.

(** [String(chip.ownerId) + String(chip.id)] *)
Definition combinedId (owner : value) (i : Z) : string :=
  String_of owner +:+ pretty i.

(** [bodyA.parentObject.ownerId = v] *)
Definition set_ownerId (l : loc) (v : value) (s : ServerEngine) : ServerEngine :=
  let o := heap s !!! l in
  set_heap (<[l := {| oid := oid o; ownerId := v; body := body o |}]> (heap s)) s.

(** The body of the [for] loop of [onCollisionStart]: its three [if]
    statements, in order. *)
Definition score_contact (bodyA bodyB : Body) (s : ServerEngine) : ServerEngine :=
  if String.eqb (label bodyA) "peg" && String.eqb (label bodyB) "chip"
     && negb (winner s)
  then updateScore bodyA bodyB s else s.

Definition owner_contact (bodyA bodyB : Body) (s : ServerEngine) : ServerEngine :=
  if String.eqb (label bodyA) "peg"
  then set_ownerId (parentObject bodyA) (ownerId (heap s !!! parentObject bodyB)) s
  else s.

Definition ground_contact (bodyA bodyB : Body) (s : ServerEngine) : ServerEngine :=
  if String.eqb (label bodyA) "ground" then
    let chip := heap s !!! parentObject bodyB in
    let combined := combinedId (ownerId chip) (oid chip) in
    let s := World_remove (body chip) s in
    set_chips (delete combined (chips s)) s
  else s.

Definition collide (pair : Body * Body) (s : ServerEngine) : ServerEngine :=
  let bodyA := pair.1 in
  let bodyB := pair.2 in
  ground_contact bodyA bodyB (owner_contact bodyA bodyB (score_contact bodyA bodyB s)).

Definition onCollisionStart (pairs : list (Body * Body)) (s : ServerEngine) : ServerEngine :=
  fold_left (λ s pair, collide pair s) pairs s.

(** The [CONNECTION] handler registered by [registerSocketEvents]. *)
Definition onConnection (sock : socket) (s : ServerEngine) : ServerEngine :=
  let s := set_knownPlayers (knownPlayers s ++ [sock]) s in
  let s := emit sock (CONNECTION_ESTABLISHED (playerId s mod 4)) s in
  set_playerId (S (playerId s)) s.

(** The handlers each connected socket gets. *)
Definition onNewChip (chipInfo : Input) (s : ServerEngine) : ServerEngine :=
  set_inputBuffer (inputBuffer s ++ [chipInfo]) s.

Definition onPing (sock : socket) (now : Q) (s : ServerEngine) : ServerEngine :=
  emit sock (PONG_MESSAGE now) s.

Definition onRequestServerFrame (sock : socket) (s : ServerEngine) : ServerEngine :=
  emit sock (SERVER_FRAME (frame s)) s.

(** One iteration of the [while] loop of [processInputBuffer]. *)
Definition spawn (input : Input) (s : ServerEngine) : ServerEngine :=
  let '(chip, s) := new_Chip (input_id input) (input_ownerId input)
                      (input_x input) (input_y input) s in
  let s := addToEngine chip s in
  let combined := combinedId (input_ownerId input) (input_id input) in
  set_chips (<[combined := chip]> (chips s)) s.

(** The loop, by recursion on what is left in the buffer: [shift] takes the
    head and leaves the tail in [this.inputBuffer]. *)
Fixpoint drain (pending : list Input) (s : ServerEngine) : ServerEngine :=
  match pending with
  | [] => s
  | input :: rest => drain rest (spawn input (set_inputBuffer rest s))
  end.

Definition processInputBuffer (s : ServerEngine) : ServerEngine :=
  drain (inputBuffer s) s.

Definition stopGame (s : ServerEngine) : ServerEngine :=
  clearInterval (loop s) s.

Definition detectWinner (s : ServerEngine) : ServerEngine :=
  let scores := (map_to_list (score s)).*2 in
  let winningPlayer := existsb (λ sc, number_ge sc (targetScore s)) scores in
  if winningPlayer then stopGame (set_winner true s) else s.

Definition reduceTargetScoreInterval (s : ServerEngine) : ServerEngine :=
  setInterval (set_targetScoreInterval true s).

(** The callback of the interval timer. *)
Definition onInterval (s : ServerEngine) : ServerEngine :=
  set_targetScore (targetScore s - 1) s.

(** [generateSnapshot] returns a value; like every method it is given the
    engine state and hands it on.  [Object.values] lists the chips in
    property order, here the enumeration order of the map; no statement
    depends on it. *)
Definition generateSnapshot (chips : gmap string loc) (pegs : list (option loc))
    (score : gmap string number) (winner : bool) (targetScore : Z)
    (s : ServerEngine) : Snapshot * ServerEngine :=
  let chips := (map_to_list chips).*2 in
  let chipInfo :=
    map (λ chip : loc,
           let c := heap s !!! chip in
           let p := kinematics s !!! body c in
           {| chip_id := oid c; chip_ownerId := ownerId c;
              chip_x := position_x p; chip_y := position_y p;
              chip_angle := angle p |}) chips in
  let pegInfo :=
    map (option_map (λ peg : loc,
           let p := heap s !!! peg in
           {| peg_id := oid p; peg_ownerId := ownerId p |})) pegs in
  ({| snap_chips := chipInfo; snap_pegs := pegInfo; snap_score := score;
      snap_winner := winner; snap_targetScore := targetScore |}, s).

Definition broadcastSnapshot (snap : Snapshot) (s : ServerEngine) : ServerEngine :=
  let encodedSnapshot := Serializer_encode snap in
  fold_left
    (λ s sock, emit sock (SNAPSHOT (frame s) encodedSnapshot (snap_score snap)
                            (snap_targetScore snap)) s)
    (knownPlayers s) s.

(** Modelled from the spec: [Engine.update] of the physics library, an
    opaque stepping primitive; it moves the bodies and then fires
    [collisionStart] with the pairs that started to touch. *)
Definition Engine_update (o : EngineOutcome) (s : ServerEngine) : ServerEngine :=
  onCollisionStart (out_pairs o)
    (set_kinematics (out_kinematics o ∪ kinematics s) s).

Section Methods.

Context (K : Constants).

Definition initializeScore (s : ServerEngine) : ServerEngine :=
  let s := set_targetScore (TARGET_SCORE K) s in
  let s := set_targetScoreInterval false s in
  set_score (<["0" := Int 0]> (<["1" := Int 0]> (<["2" := Int 0]> (<["3" := Int 0]> ∅)))) s.

Definition _createWalls (s : ServerEngine) : ServerEngine :=
  new_static (new_static (new_static s)).

Definition _createBucketWalls (s : ServerEngine) : ServerEngine :=
  fold_left (λ s _, new_static s) (seq 1 (COLS K - 1)) s.

Definition _createTriangles (s : ServerEngine) : ServerEngine :=
  fold_left (λ s _, new_static s) (seq 0 6) s.

(** The inner [for] loop of [_createPegs] over the columns still to
    visit; the result is the next free [id]. *)
Fixpoint createPegs_cols (row : nat) (cols : list nat) (i : nat)
    (s : ServerEngine) : nat * ServerEngine :=
  match cols with
  | [] => (i, s)
  | col :: cols' =>
      let x := (inject_Z (Z.of_nat col) * COL_SPACING K)%Q in
      let y := (VERTICAL_MARGIN K + inject_Z (Z.of_nat row) * ROW_SPACING K)%Q in
      if (row mod 2 =? 1)%nat && (col =? COLS K - 1)%nat then (i, s)
      else
        let x := if (row mod 2 =? 1)%nat then (x + HORIZONTAL_OFFSET K)%Q else x in
        let '(peg, s) := new_Peg (Z.of_nat i) x y s in
        let s := set_pegs (array_set i peg (pegs s)) s in
        let s := addToEngine peg s in
        createPegs_cols row cols' (S i) s
  end.

Fixpoint createPegs_rows (rows : list nat) (i : nat) (s : ServerEngine) : ServerEngine :=
  match rows with
  | [] => s
  | row :: rows' =>
      let '(i, s) := createPegs_cols row (seq 1 (COLS K - 1)) i s in
      createPegs_rows rows' i s
  end.

Definition _createPegs (s : ServerEngine) : ServerEngine :=
  createPegs_rows (seq 0 (ROWS K)) 0%nat s.

Definition createEnvironment (s : ServerEngine) : ServerEngine :=
  _createTriangles (_createPegs (_createBucketWalls (_createWalls s))).

(** [registerSocketEvents] resets the connection counter its handler
    captures; the handlers themselves are the [on...] functions. *)
Definition init (s : ServerEngine) : ServerEngine :=
  let s := set_chips ∅ s in
  let s := set_pegs [] s in
  let s := set_winner false s in
  let s := initializeScore s in
  let s := createEnvironment s in
  set_playerId 0%nat s.

(** One iteration of the [while] loop of [startGame], cut at the points the
    statements refer to: input intake, the physics step, the win check and
    timer start, and from the snapshot on. *)
Definition intake (s : ServerEngine) : ServerEngine :=
  let s := set_frame (frame s + 1) s in
  if negb (bool_decide (inputBuffer s = [])) then processInputBuffer s else s.

Definition referee (s : ServerEngine) : ServerEngine :=
  let s := if negb (winner s) then detectWinner s else s in
  if negb (targetScoreInterval s) then reduceTargetScoreInterval s else s.

Definition simulate (o : EngineOutcome) (s : ServerEngine) : ServerEngine :=
  referee (Engine_update o (intake s)).

Definition tick (o : EngineOutcome) (s : ServerEngine) : ServerEngine :=
  let s := simulate o s in
  let '(snapshot, s) :=
    generateSnapshot (chips s) (pegs s) (score s) (winner s) (targetScore s) s in
  let s := broadcastSnapshot snapshot s in
  set_nextTimestep (time_add (nextTimestep s) (TIMESTEP K)) s.

(** The [while] loop.  Each evaluation of its condition reads the clock;
    [readings] lists those readings in order, each with what the physics
    step of that iteration would report.  The loop ends at the first
    reading that is not past [nextTimestep]; [None] means the listed
    readings ran out while the loop was still going. *)
Fixpoint startGame_loop (readings : list (Q * EngineOutcome))
    (s : ServerEngine) : option ServerEngine :=
  match readings with
  | [] => None
  | (now, o) :: rest =>
      if time_gt now (nextTimestep s) then startGame_loop rest (tick o s)
      else Some s
  end.

Definition startGame (now : Q) (readings : list (Q * EngineOutcome))
    (s : ServerEngine) : option ServerEngine :=
  let s := set_nextTimestep
             (if time_truthy (nextTimestep s) then nextTimestep s else Finite now) s in
  s ← startGame_loop readings s;
  Some (setImmediate s).

End Methods.

(** ** The event loop *)

(** What the runtime can hand to the engine between two turns: a socket
    event, an interval timer that elapsed, the call that starts the loop,
    or a pending [setImmediate] callback. *)
Inductive event : Type :=
  | EConnection (sock : socket)
  | ENewChip (chipInfo : Input)
  | EPing (sock : socket) (now : Q)
  | ERequestServerFrame (sock : socket)
  | EInterval (t : timer)
  | EStartGame (now : Q) (readings : list (Q * EngineOutcome))
  | EImmediate (now : Q) (readings : list (Q * EngineOutcome)).

Section EventLoop.

Context (K : Constants).

(** How many times a burst goes round the loop. *)
Fixpoint iterations (readings : list (Q * EngineOutcome)) (s : ServerEngine) : nat :=
  match readings with
  | [] => O
  | (now, o) :: rest =>
      if time_gt now (nextTimestep s) then S (iterations rest (tick K o s)) else O
  end.

(** The state after some iterations of the loop, one physics outcome
    each. *)
Definition ticks (os : list EngineOutcome) (s : ServerEngine) : ServerEngine :=
  fold_left (λ s o, tick K o s) os s.

(** An elapsed interval runs its callback only while the timer is
    active; a [setImmediate] turn runs only if a callback is pending. *)
Definition step (e : event) (s : ServerEngine) : option ServerEngine :=
  match e with
  | EConnection sock => Some (onConnection sock s)
  | ENewChip chipInfo => Some (onNewChip chipInfo s)
  | EPing sock now => Some (onPing sock now s)
  | ERequestServerFrame sock => Some (onRequestServerFrame sock s)
  | EInterval t =>
      Some (if bool_decide (t ∈ intervals s) then onInterval s else s)
  | EStartGame now readings => startGame K now readings s
  | EImmediate now readings =>
      match immediates s with
      | O => Some s
      | S n => startGame K now readings (set_immediates n s)
      end
  end.

Fixpoint run (es : list event) (s : ServerEngine) : option ServerEngine :=
  match es with
  | [] => Some s
  | e :: es' => s' ← step e s; run es' s'
  end.

(** The physics steps an event brings with it. *)
Definition event_outcomes (e : event) : list EngineOutcome :=
  match e with
  | EStartGame _ readings | EImmediate _ readings => readings.*2
  | _ => []
  end.

(** How many decay intervals elapse in a run: the [EInterval] events that
    find their timer active. *)
Fixpoint elapsed (es : list event) (s : ServerEngine) : nat :=
  match es with
  | [] => O
  | e :: es' =>
      (match e with
       | EInterval t => if bool_decide (t ∈ intervals s) then 1 else 0
       | _ => 0
       end
       + match step e s with
         | Some s' => elapsed es' s'
         | None => 0
         end)%nat
  end.

End EventLoop.

(** ** Predicates of the statements *)

(** The part of the state that neither collision handling nor spawning nor
    broadcasting writes: the scheduler's and the score model's control
    fields and the peg array. *)
Definition same_control (s s' : ServerEngine) : Prop :=
  frame s' = frame s ∧ winner s' = winner s ∧ targetScore s' = targetScore s
  ∧ targetScoreInterval s' = targetScoreInterval s ∧ loop s' = loop s
  ∧ intervals s' = intervals s ∧ immediates s' = immediates s
  ∧ nextTimestep s' = nextTimestep s ∧ knownPlayers s' = knownPlayers s
  ∧ pegs s' = pegs s ∧ playerId s' = playerId s.

(** Broadcasting only appends to the outbox. *)
Definition same_but_outbox (s s' : ServerEngine) : Prop :=
  same_control s s' ∧ score s' = score s ∧ chips s' = chips s ∧ heap s' = heap s
  ∧ world s' = world s ∧ kinematics s' = kinematics s ∧ nextRef s' = nextRef s
  ∧ inputBuffer s' = inputBuffer s.

(** The peg array as [_createPegs] builds it: no holes, the peg at index
    [i] carries id [i], and its object has been allocated. *)
Definition pegs_ok (s : ServerEngine) : Prop :=
  ∀ i : nat, (i < length (pegs s))%nat →
    ∃ l : loc, pegs s !! i = Some (Some l)
               ∧ oid (heap s !!! l) = Z.of_nat i ∧ (l < nextRef s)%nat.

(** The chip registry is keyed consistently: an entry sits under the
    combined key of the chip it refers to, and that object is not a peg. *)
Definition registry_ok (s : ServerEngine) : Prop :=
  ∀ (k : string) (l : loc), chips s !! k = Some l →
    combinedId (ownerId (heap s !!! l)) (oid (heap s !!! l)) = k
    ∧ (Some l ∉ pegs s) ∧ (l < nextRef s)%nat.

(** Bodies labelled ['peg'] belong to pegs of the board. *)
Definition pairs_ok (s : ServerEngine) (pairs : list (Body * Body)) : Prop :=
  Forall (λ pair, label pair.1 = "peg" → Some (parentObject pair.1) ∈ pegs s) pairs.

(** The score of one of the four players, and the total over them. *)
Definition slot (s : ServerEngine) (player : Z) : option number :=
  score s !! pretty player.

Definition points (s : ServerEngine) (player : Z) : Z :=
  match slot s player with
  | Some (Int n) => n
  | _ => 0
  end.

Definition total_score (s : ServerEngine) : Z :=
  points s 0 + points s 1 + points s 2 + points s 3.

(** A player identifier of the data model. *)
Definition valid_player (v : value) : Prop :=
  ∃ n : Z, v = VNum n ∧ 0 ≤ n < 4.

(** The timer bookkeeping of a running engine: [this.loop] unset, frames
    counted from zero, and one interval timer exactly when the flag is
    set, which is when at least one tick has run. *)
Definition timer_inv (s : ServerEngine) : Prop :=
  loop s = None ∧ 0 ≤ frame s
  ∧ length (intervals s) = (if targetScoreInterval s then 1 else 0)%nat
  ∧ (targetScoreInterval s = true ↔ 0 < frame s).

(** The combined key and the identifying pair of an input command. *)
Definition input_key (c : Input) : string :=
  combinedId (input_ownerId c) (input_id c).

Definition input_pair (c : Input) : value * Z :=
  (input_ownerId c, input_id c).

(** What building the board leaves alone: the scheduler's and the score
    model's fields. *)
Definition same_schedule (s s' : ServerEngine) : Prop :=
  frame s' = frame s ∧ targetScore s' = targetScore s
  ∧ targetScoreInterval s' = targetScoreInterval s ∧ loop s' = loop s
  ∧ intervals s' = intervals s ∧ winner s' = winner s ∧ score s' = score s.


(** The snapshot a tick builds from the state it has reached. *)
Definition snapshot_of (s : ServerEngine) : Snapshot :=
  (generateSnapshot (chips s) (pegs s) (score s) (winner s) (targetScore s) s).1.

(** A chip is despawned in a state: its body is out of the physics world,
    the registry has no entry under its combined key, and the snapshot
    built from the state lists no chip with its owner and id. *)
Definition despawned (chip : Obj) (s : ServerEngine) : Prop :=
  (body chip ∉ world s)
  ∧ chips s !! combinedId (ownerId chip) (oid chip) = None
  ∧ ∀ info : ChipInfo,
      info ∈ snap_chips (snapshot_of s) →
      ¬ (chip_ownerId info = ownerId chip ∧ chip_id info = oid chip).

(** The state in which the collision pairs of a tick's physics step are
    handled, before the first of them. *)
Definition at_contact (o : EngineOutcome) (s : ServerEngine) : ServerEngine :=
  set_kinematics (out_kinematics o ∪ kinematics (intake s)) (intake s).

(** ** Scenarios *)

(** A board with a single peg.  The values of the constants are not in the
    sources; these are example values, the timestep being [1000 / 60] as a
    double, 16.666666666666668. *)
Definition demo : Constants :=
  {| TARGET_SCORE := 3; TIMESTEP := 4691249611844267 # 281474976710656; ROWS := 1; COLS := 2;
     ROW_SPACING := 40; COL_SPACING := 50; VERTICAL_MARGIN := 100;
     HORIZONTAL_OFFSET := 25 |}.

(** The same board with the target one point away. *)
Definition sudden_death : Constants :=
  {| TARGET_SCORE := 1; TIMESTEP := 4691249611844267 # 281474976710656; ROWS := 1; COLS := 2;
     ROW_SPACING := 40; COL_SPACING := 50; VERTICAL_MARGIN := 100;
     HORIZONTAL_OFFSET := 25 |}.

Definition board : ServerEngine := init demo new_ServerEngine.

(** A [newChip] payload. *)
Definition drop (owner i : Z) : Input :=
  {| input_id := i; input_ownerId := VNum owner; input_x := 400; input_y := 10 |}.

Definition peg_body (l : loc) : Body := {| label := "peg"; parentObject := l |}.
Definition chip_body (l : loc) : Body := {| label := "chip"; parentObject := l |}.
Definition ground_body (l : loc) : Body := {| label := "ground"; parentObject := l |}.

(** A physics step in which nothing touches, and one reporting one pair. *)
Definition still : EngineOutcome := {| out_kinematics := ∅; out_pairs := [] |}.

Definition contact (a b : Body) : EngineOutcome :=
  {| out_kinematics := ∅; out_pairs := [(a, b)] |}.

(** Players 0 and 1 have each dropped their chip [0] on the board. *)
Definition two_chips : ServerEngine :=
  intake (onNewChip (drop 1 0) (onNewChip (drop 0 0) board)).

(** Player 0's chip has touched the peg: player 0 owns it, one point. *)
Definition peg_taken : ServerEngine :=
  onCollisionStart [(peg_body 4, chip_body 12)] two_chips.

(** Sudden death: player 0's chip touches the peg in the first tick, and
    that decides the match. *)
Definition decided : ServerEngine :=
  simulate (contact (peg_body 4) (chip_body 12))
    (onNewChip (drop 0 0) (init sudden_death new_ServerEngine)).

(** After that, player 1 drops a chip all the same. *)
Definition late : ServerEngine := intake (onNewChip (drop 1 0) decided).

(** The state a run from a freshly initialised engine ends in. *)
Definition play (K : Constants) (es : list event) : ServerEngine :=
  default new_ServerEngine (run K es (init K new_ServerEngine)).

(** A sudden-death match: player 0 drops a chip; the loop starts and runs
    two ticks, the second with the chip on the peg.  Then the decay
    interval elapses and the pending [setImmediate] callback runs. *)
Definition opening : list event :=
  [ENewChip (drop 0 0);
   EStartGame 1000 [(1001, still);
                    (1020, contact (peg_body 4) (chip_body 12));
                    (1021, still)]]%Q.

Definition aftermath : list event :=
  [EInterval 14; EImmediate 1040 [(1040, still); (1041, still)]]%Q.

(** A quiet match on the demo board: two ticks, then two decay
    intervals. *)
Definition quiet : list event :=
  [EStartGame 1000 [(1001, still); (1020, still); (1021, still)];
   EInterval 12; EInterval 12]%Q.

(** Player 0 has dropped a chip on the demo board; in the next tick it
    reaches the ground. *)
Definition dropped : ServerEngine := onNewChip (drop 0 0) board.

Definition landing : EngineOutcome := contact (ground_body 0) (chip_body 12).

(** A burst that has fallen behind: the loop starts with the next tick due
    at 1000 and the clock reads 1040 throughout, so three ticks run back to
    back before the fourth reading ends the burst. *)
Definition behind : ServerEngine := set_nextTimestep (Finite 1000) board.

Definition catch_up : list (Q * EngineOutcome) :=
  [(1040, still); (1040, still); (1040, still); (1040, still)]%Q.

(** A loop that has fallen a hundred milliseconds behind: the next tick
    is due at 100 and the clock reads 200 at every look. *)
Definition overdue : ServerEngine := set_nextTimestep (Finite 100) board.

Definition stalled_clock : list (Q * EngineOutcome) := replicate 8 (200%Q, still).

(** ** Further operations and predicates *)

(** The deadline after [n] more iterations of the loop: [n] times
    [nextTimestep += TIMESTEP]. *)
Fixpoint deadline (K : Constants) (n : nat) (t : time) : time :=
  match n with
  | O => t
  | S n' => deadline K n' (time_add t (TIMESTEP K))
  end.

(** Several sockets connecting one after another. *)
Definition connect (socks : list socket) (s : ServerEngine) : ServerEngine :=
  fold_left (λ s sock, onConnection sock s) socks s.

(** The pegs [_createPegs] puts on a row: odd rows skip the last column. *)
Definition row_pegs (K : Constants) (row : nat) : nat :=
  if (row mod 2 =? 1)%nat then (COLS K - 2)%nat else (COLS K - 1)%nat.

(** What the simulation part of a tick leaves alone: the sockets, what was
    sent to them, the deadline and the pending callbacks. *)
Definition same_io (s s' : ServerEngine) : Prop :=
  outbox s' = outbox s ∧ knownPlayers s' = knownPlayers s
  ∧ nextTimestep s' = nextTimestep s ∧ immediates s' = immediates s.

(** Every peg of the array is unowned and has its body in the world. *)
Definition pegs_unowned (s : ServerEngine) : Prop :=
  ∀ (i : nat) (l : loc), pegs s !! i = Some (Some l) →
    ownerId (heap s !!! l) = VNull ∧ body (heap s !!! l) ∈ world s
    ∧ (l < nextRef s)%nat.

(** The message a tick sends to a socket. *)
Definition snapshot_message (frame : Z) (s : ServerEngine) : Message :=
  SNAPSHOT frame (snapshot_of s) (score s) (targetScore s).


(** * Properties *)

(** ** What the loops leave alone *)

Lemma same_control_refl s : same_control s s.
Proof. by repeat split. Qed.

Lemma same_control_trans s1 s2 s3 :
  same_control s1 s2 → same_control s2 s3 → same_control s1 s3.
Proof.
  unfold same_control. intros H12 H23.
  destruct_and!. repeat split; congruence.
Qed.

Ltac unfold_methods :=
  unfold collide, ground_contact, owner_contact, score_contact, updateScore,
    incrementScore, decrementScore, set_ownerId,
    World_remove, World_add, spawn, new_Chip, new_Peg, new_Obj, addToEngine,
    new_static, emit, stopGame, clearInterval, setInterval, setImmediate,
    reduceTargetScoreInterval, onInterval, onConnection, onNewChip, onPing,
    onRequestServerFrame in *.

Ltac by_cases := unfold_methods; repeat case_match; simpl in *; try done.

Lemma updateScore_control a b s : same_control s (updateScore a b s).
Proof. unfold same_control. by_cases. Qed.

Lemma score_contact_control a b s : same_control s (score_contact a b s).
Proof.
  unfold score_contact. case_match; [apply updateScore_control|apply same_control_refl].
Qed.

Lemma owner_contact_control a b s : same_control s (owner_contact a b s).
Proof.
  unfold owner_contact. case_match; [by repeat split|apply same_control_refl].
Qed.

Lemma ground_contact_control a b s : same_control s (ground_contact a b s).
Proof.
  unfold ground_contact. case_match; [by repeat split|apply same_control_refl].
Qed.

Lemma collide_control pair s : same_control s (collide pair s).
Proof.
  unfold collide.
  eapply same_control_trans; [apply score_contact_control|].
  eapply same_control_trans; [apply owner_contact_control|].
  apply ground_contact_control.
Qed.

Lemma spawn_control input rest s :
  same_control s (spawn input (set_inputBuffer rest s)).
Proof. unfold same_control. by_cases. Qed.

Lemma onCollisionStart_ind (P : ServerEngine → Prop) :
  (∀ pair s, P s → P (collide pair s)) →
  ∀ pairs s, P s → P (onCollisionStart pairs s).
Proof.
  intros Hstep pairs. unfold onCollisionStart.
  induction pairs as [|pair pairs IH]; intros s Hs; simpl; [done|].
  apply IH, Hstep, Hs.
Qed.

Lemma onCollisionStart_app before after s :
  onCollisionStart (before ++ after) s
  = onCollisionStart after (onCollisionStart before s).
Proof. unfold onCollisionStart. apply fold_left_app. Qed.

Lemma onCollisionStart_cons pair pairs s :
  onCollisionStart (pair :: pairs) s = onCollisionStart pairs (collide pair s).
Proof. reflexivity. Qed.

Lemma drain_ind (P : ServerEngine → Prop) :
  (∀ input rest s, P s → P (spawn input (set_inputBuffer rest s))) →
  ∀ pending s, P s → P (drain pending s).
Proof.
  intros Hstep pending.
  induction pending as [|input rest IH]; intros s Hs; simpl; [done|].
  apply IH, Hstep, Hs.
Qed.

Lemma onCollisionStart_control pairs s : same_control s (onCollisionStart pairs s).
Proof.
  apply (onCollisionStart_ind (same_control s)); [|apply same_control_refl].
  intros pair s' Hs'. eapply same_control_trans; [exact Hs'|apply collide_control].
Qed.

Lemma drain_control pending s : same_control s (drain pending s).
Proof.
  apply (drain_ind (same_control s)); [|apply same_control_refl].
  intros input rest s' Hs'. eapply same_control_trans; [exact Hs'|apply spawn_control].
Qed.

Lemma broadcastSnapshot_same snap s : same_but_outbox s (broadcastSnapshot snap s).
Proof.
  unfold broadcastSnapshot.
  generalize (knownPlayers s) at 1. intros socks.
  assert (Hrefl : same_but_outbox s s) by (by repeat split).
  revert Hrefl. generalize s at 2 4. intros s0 H0. revert s0 H0.
  induction socks as [|sock socks IH]; intros s0 H0; simpl; [done|].
  apply IH. unfold same_but_outbox, same_control in *. simpl.
  destruct_and!. by repeat split.
Qed.

Lemma spawn_score input rest s :
  score (spawn input (set_inputBuffer rest s)) = score s.
Proof. by_cases. Qed.

Lemma drain_score pending s : score (drain pending s) = score s.
Proof.
  apply (drain_ind (λ s', score s' = score s)); [|done].
  intros input rest s' Hs'. by rewrite spawn_score.
Qed.

(** Once a winner is declared, a collision pair changes no score. *)
Lemma collide_score_latched pair s :
  winner s = true → score (collide pair s) = score s.
Proof.
  intros Hwin. unfold collide, score_contact. rewrite Hwin, !andb_false_r. by_cases.
Qed.

Lemma onCollisionStart_score_latched pairs s :
  winner s = true → score (onCollisionStart pairs s) = score s.
Proof.
  intros Hwin.
  apply (onCollisionStart_ind (λ s', winner s' = true ∧ score s' = score s));
    [|done].
  intros pair s' [Hw Hsc]. split.
  - destruct (collide_control pair s') as (_ & -> & _). done.
  - by rewrite collide_score_latched.
Qed.

(** [stopGame] clears the timer named by [this.loop]; with no such field
    set there is nothing to clear. *)
Lemma stopGame_unset s : loop s = None → stopGame s = s.
Proof. unfold stopGame. by intros ->. Qed.

Lemma detectWinner_frame s : frame (detectWinner s) = frame s.
Proof. unfold detectWinner. by_cases. Qed.

Lemma detectWinner_score s : score (detectWinner s) = score s.
Proof. unfold detectWinner. by_cases. Qed.

Lemma detectWinner_latched s : winner s = true → winner (detectWinner s) = true.
Proof. unfold detectWinner. by_cases. Qed.

Section Ticks.

Context (K : Constants).

Lemma intake_frame s : frame (intake s) = frame s + 1.
Proof.
  unfold intake. case_match; [|done]. unfold processInputBuffer.
  by destruct (drain_control (inputBuffer (set_frame (frame s + 1) s))
                 (set_frame (frame s + 1) s)) as (-> & _).
Qed.

Lemma intake_latched s :
  winner (intake s) = winner s ∧ score (intake s) = score s.
Proof.
  unfold intake. case_match; [|done]. unfold processInputBuffer.
  rewrite drain_score.
  by destruct (drain_control (inputBuffer (set_frame (frame s + 1) s))
                 (set_frame (frame s + 1) s)) as (_ & -> & _).
Qed.

Lemma Engine_update_control o s : same_control s (Engine_update o s).
Proof.
  unfold Engine_update.
  eapply same_control_trans; [|apply onCollisionStart_control].
  by repeat split.
Qed.

Lemma referee_frame s : frame (referee s) = frame s.
Proof.
  unfold referee.
  set (s1 := if negb (winner s) then detectWinner s else s).
  assert (H : frame s1 = frame s).
  { subst s1. destruct (negb (winner s)); [|done]. apply detectWinner_frame. }
  destruct (negb (targetScoreInterval s1)); [|done]. by_cases.
Qed.

Lemma referee_latched s :
  winner s = true → winner (referee s) = true ∧ score (referee s) = score s.
Proof. intros Hwin. unfold referee. rewrite Hwin. simpl. by_cases. Qed.

Lemma simulate_frame o s : frame (simulate o s) = frame s + 1.
Proof.
  unfold simulate. rewrite referee_frame.
  destruct (Engine_update_control o (intake s)) as (-> & _).
  apply intake_frame.
Qed.

Lemma tick_frame o s : frame (tick K o s) = frame s + 1.
Proof.
  unfold tick, generateSnapshot. simpl.
  match goal with
  | |- frame (broadcastSnapshot ?snap ?s0) = _ =>
      destruct (broadcastSnapshot_same snap s0) as ((-> & _) & _)
  end.
  apply simulate_frame.
Qed.

Lemma simulate_latched o s :
  winner s = true →
  winner (simulate o s) = true ∧ score (simulate o s) = score s.
Proof.
  intros Hwin. unfold simulate.
  destruct (intake_latched s) as [Hw Hs]. rewrite Hwin in Hw.
  assert (Hu : winner (Engine_update o (intake s)) = true).
  { by destruct (Engine_update_control o (intake s)) as (_ & -> & _). }
  destruct (referee_latched _ Hu) as [-> ->]. split; [done|].
  unfold Engine_update. by rewrite onCollisionStart_score_latched.
Qed.

Lemma tick_latched o s :
  winner s = true → winner (tick K o s) = true ∧ score (tick K o s) = score s.
Proof.
  intros Hwin. unfold tick, generateSnapshot. simpl.
  match goal with
  | |- winner (broadcastSnapshot ?snap ?s0) = _ ∧ _ =>
      destruct (broadcastSnapshot_same snap s0) as ((_ & -> & _) & -> & _)
  end.
  by apply simulate_latched.
Qed.

Lemma startGame_loop_frame readings s s' :
  startGame_loop K readings s = Some s' →
  frame s' = frame s + Z.of_nat (iterations K readings s).
Proof.
  revert s. induction readings as [|[now o] rest IH]; intros s; simpl; [done|].
  destruct (time_gt now (nextTimestep s)).
  - intros Hrest. rewrite (IH _ Hrest), tick_frame. lia.
  - intros [= <-]. lia.
Qed.

Lemma startGame_loop_latched readings s s' :
  winner s = true → startGame_loop K readings s = Some s' →
  winner s' = true ∧ score s' = score s.
Proof.
  revert s. induction readings as [|[now o] rest IH]; intros s Hwin; simpl; [done|].
  destruct (time_gt now (nextTimestep s)).
  - intros Hrest. destruct (tick_latched o s Hwin) as [Hw Hs].
    destruct (IH _ Hw Hrest) as [Hw' Hs']. split; congruence.
  - by intros [= <-].
Qed.

Lemma startGame_frame now readings s s' :
  startGame K now readings s = Some s' → frame s ≤ frame s'.
Proof.
  unfold startGame. intros Hrun.
  destruct (startGame_loop K readings _) as [s1|] eqn:Hloop; [|done].
  simpl in Hrun. injection Hrun as <-.
  apply startGame_loop_frame in Hloop. simpl in *. lia.
Qed.

Lemma startGame_latched now readings s s' :
  winner s = true → startGame K now readings s = Some s' →
  winner s' = true ∧ score s' = score s.
Proof.
  unfold startGame. intros Hwin Hrun.
  destruct (startGame_loop K readings _) as [s1|] eqn:Hloop; [|done].
  simpl in Hrun. injection Hrun as <-.
  by apply startGame_loop_latched in Hloop.
Qed.

Lemma step_frame e s s' : step K e s = Some s' → frame s ≤ frame s'.
Proof.
  destruct e; simpl; try (intros [= <-]; by_cases; lia).
  - apply startGame_frame.
  - destruct (immediates s); [by intros [= <-]|].
    intros Hrun. by apply startGame_frame in Hrun.
Qed.

Lemma step_latched e s s' :
  winner s = true → step K e s = Some s' → winner s' = true ∧ score s' = score s.
Proof.
  intros Hwin. destruct e; simpl; try (intros [= <-]; by_cases).
  - by apply startGame_latched.
  - destruct (immediates s); [by intros [= <-]|].
    intros Hrun. by apply startGame_latched in Hrun.
Qed.

Lemma run_latched es s s' :
  winner s = true → run K es s = Some s' → winner s' = true ∧ score s' = score s.
Proof.
  revert s. induction es as [|e es IH]; intros s Hwin; simpl.
  - by intros [= <-].
  - destruct (step K e s) as [s1|] eqn:Hstep; [|done]. simpl.
    destruct (step_latched _ _ _ Hwin Hstep) as [Hw Hs].
    intros Hrun. destruct (IH _ Hw Hrun). split; congruence.
Qed.

End Ticks.

(** ** Keys *)

Lemma pretty_digit (n : Z) :
  0 ≤ n < 10 → ∃ c : Ascii.ascii, pretty n = String c EmptyString.
Proof.
  intros Hn.
  assert (Hcases : n = 0 ∨ n = 1 ∨ n = 2 ∨ n = 3 ∨ n = 4 ∨ n = 5 ∨ n = 6
                   ∨ n = 7 ∨ n = 8 ∨ n = 9) by lia.
  destruct_or!; subst n; by eexists.
Qed.

(** For single-digit owners the combined key determines the pair. *)
Lemma combinedId_digit_inj (o1 o2 i1 i2 : Z) :
  0 ≤ o1 < 10 → 0 ≤ o2 < 10 →
  combinedId (VNum o1) i1 = combinedId (VNum o2) i2 → o1 = o2 ∧ i1 = i2.
Proof.
  intros H1 H2. unfold combinedId. simpl.
  destruct (pretty_digit o1 H1) as [c1 Hc1], (pretty_digit o2 H2) as [c2 Hc2].
  rewrite Hc1, Hc2. simpl. intros [= Hc Hi].
  split; apply (inj pretty); [|done]. by rewrite Hc1, Hc2, Hc.
Qed.


(** ** Scores *)

Lemma incrementScore_lookup v s k :
  score (incrementScore v s) !! k
  = if decide (String_of v = k) then Some (plus_one (score s !! k)) else score s !! k.
Proof.
  unfold incrementScore. simpl. rewrite lookup_insert.
  case_decide; by subst.
Qed.


(** What [updateScore] does to the score map, by the three ways its tests
    can go. *)
Lemma updateScore_score peg chip s former owner :
  ownerId (heap s !!! parentObject peg) = former →
  ownerId (heap s !!! parentObject chip) = owner →
  score (updateScore peg chip s)
  = if decide (owner = former) then score s
    else if truthy former
         then score (decrementScore former (incrementScore owner s))
         else score (incrementScore owner s).
Proof.
  intros <- <-. unfold updateScore, strict_eq.
  case_bool_decide; case_decide; try done; simpl.
  by destruct (truthy _).
Qed.


(** A peg held by player 0 changes hands without player 0 losing the
    point: [0] is falsy, like the [null] of an unowned peg. *)
Lemma updateScore_from_player_zero peg chip s (b : Z) :
  ownerId (heap s !!! parentObject peg) = VNum 0 →
  ownerId (heap s !!! parentObject chip) = VNum b →
  b ≠ 0 →
  score (updateScore peg chip s) = score (incrementScore (VNum b) s)
  ∧ slot (updateScore peg chip s) 0 = slot s 0.
Proof.
  intros Ha Hb Hb0.
  pose proof (updateScore_score peg chip s _ _ Ha Hb) as Hsc.
  rewrite decide_False in Hsc by congruence.
  change (truthy (VNum 0)) with false in Hsc. split; [done|].
  unfold slot. rewrite Hsc, incrementScore_lookup. simpl.
  rewrite decide_False; [done|].
  intros Heq. by apply (inj pretty) in Heq.
Qed.

(** ** One collision pair *)

Lemma updateScore_store a b s :
  heap (updateScore a b s) = heap s ∧ chips (updateScore a b s) = chips s
  ∧ world (updateScore a b s) = world s ∧ nextRef (updateScore a b s) = nextRef s
  ∧ winner (updateScore a b s) = winner s.
Proof. by_cases. Qed.

Lemma label_peg_not_ground (b : Body) :
  String.eqb (label b) "peg" = true → String.eqb (label b) "ground" = false.
Proof. intros Hpeg%String.eqb_eq. by rewrite Hpeg. Qed.

(** A pair whose first body is a peg rewrites that peg's owner and nothing
    else in the store; the registry and the world are untouched. *)
Lemma collide_peg bodyA bodyB s :
  label bodyA = "peg" →
  heap (collide (bodyA, bodyB) s)
  = <[parentObject bodyA :=
        {| oid := oid (heap s !!! parentObject bodyA);
           ownerId := ownerId (heap s !!! parentObject bodyB);
           body := body (heap s !!! parentObject bodyA) |}]> (heap s)
  ∧ chips (collide (bodyA, bodyB) s) = chips s
  ∧ world (collide (bodyA, bodyB) s) = world s.
Proof.
  intros Hpeg. unfold collide, ground_contact, owner_contact, score_contact.
  simpl. rewrite Hpeg. simpl.
  destruct (String.eqb (label bodyB) "chip" && negb (winner s)).
  - destruct (updateScore_store bodyA bodyB s) as (Hh & Hc & Hw & _).
    unfold set_ownerId. simpl. by rewrite Hh, Hc, Hw.
  - done.
Qed.

(** A pair whose first body is the ground removes the second body's chip
    from the world and from the registry, whatever the winner flag. *)
Lemma collide_ground bodyA bodyB s :
  label bodyA = "ground" →
  let chip := heap s !!! parentObject bodyB in
  heap (collide (bodyA, bodyB) s) = heap s
  ∧ chips (collide (bodyA, bodyB) s)
    = delete (combinedId (ownerId chip) (oid chip)) (chips s)
  ∧ world (collide (bodyA, bodyB) s) = world s ∖ {[body chip]}
  ∧ score (collide (bodyA, bodyB) s) = score s.
Proof.
  intros Hground. unfold collide, ground_contact, owner_contact, score_contact.
  simpl. by rewrite Hground.
Qed.

(** Any other pair changes nothing in the store. *)
Lemma collide_other bodyA bodyB s :
  label bodyA ≠ "peg" → label bodyA ≠ "ground" →
  collide (bodyA, bodyB) s = s.
Proof.
  intros Hpeg%String.eqb_neq Hground%String.eqb_neq.
  unfold collide, ground_contact, owner_contact, score_contact.
  simpl. by rewrite Hpeg, Hground.
Qed.

Lemma collide_nextRef pair s : nextRef (collide pair s) = nextRef s.
Proof. by_cases. Qed.

(** During a batch the registry and the world only shrink. *)
Lemma collide_chips_shrink pair s k :
  chips s !! k = None → chips (collide pair s) !! k = None.
Proof.
  destruct pair as [bodyA bodyB]. intros Hk.
  destruct (decide (label bodyA = "peg")) as [Hpeg|Hpeg].
  { destruct (collide_peg bodyA bodyB s Hpeg) as (_ & -> & _). done. }
  destruct (decide (label bodyA = "ground")) as [Hground|Hground].
  { destruct (collide_ground bodyA bodyB s Hground) as (_ & -> & _).
    rewrite lookup_delete. by case_decide. }
  by rewrite collide_other.
Qed.

Lemma collide_chips_sub pair s k l :
  chips (collide pair s) !! k = Some l → chips s !! k = Some l.
Proof.
  destruct pair as [bodyA bodyB].
  destruct (decide (label bodyA = "peg")) as [Hpeg|Hpeg].
  { destruct (collide_peg bodyA bodyB s Hpeg) as (_ & -> & _). done. }
  destruct (decide (label bodyA = "ground")) as [Hground|Hground].
  { destruct (collide_ground bodyA bodyB s Hground) as (_ & -> & _).
    rewrite lookup_delete. by case_decide. }
  by rewrite collide_other.
Qed.

Lemma collide_world_shrink pair s h :
  h ∉ world s → h ∉ world (collide pair s).
Proof.
  destruct pair as [bodyA bodyB]. intros Hh.
  destruct (decide (label bodyA = "peg")) as [Hpeg|Hpeg].
  { destruct (collide_peg bodyA bodyB s Hpeg) as (_ & _ & ->). done. }
  destruct (decide (label bodyA = "ground")) as [Hground|Hground].
  { destruct (collide_ground bodyA bodyB s Hground) as (_ & _ & -> & _).
    intros [Hin _]%elem_of_difference. done. }
  by rewrite collide_other.
Qed.

Lemma onCollisionStart_chips_shrink pairs s k :
  chips s !! k = None → chips (onCollisionStart pairs s) !! k = None.
Proof.
  intros Hk. apply (onCollisionStart_ind (λ s', chips s' !! k = None)); [|done].
  intros pair s'. apply collide_chips_shrink.
Qed.

Lemma onCollisionStart_world_shrink pairs s h :
  h ∉ world s → h ∉ world (onCollisionStart pairs s).
Proof.
  intros Hh. apply (onCollisionStart_ind (λ s', h ∉ world s')); [|done].
  intros pair s'. apply collide_world_shrink.
Qed.

(** ** Invariants of a run *)

(** A property kept by one tick and by every handler is kept by a whole
    run; [Q] restricts the physics outcomes where the property needs it. *)
Section Invariance.

Context (K : Constants) (P : ServerEngine → Prop) (Q : EngineOutcome → Prop).

Hypothesis P_tick : ∀ o s, Q o → P s → P (tick K o s).
Hypothesis P_nextTimestep : ∀ t s, P s → P (set_nextTimestep t s).
Hypothesis P_immediates : ∀ n s, P s → P (set_immediates n s).
Hypothesis P_connection : ∀ sock s, P s → P (onConnection sock s).
Hypothesis P_newChip : ∀ chipInfo s, P s → P (onNewChip chipInfo s).
Hypothesis P_emit : ∀ sock msg s, P s → P (emit sock msg s).
Hypothesis P_interval : ∀ s, P s → P (onInterval s).

Lemma startGame_loop_invariant readings s s' :
  Forall Q readings.*2 → P s → startGame_loop K readings s = Some s' → P s'.
Proof.
  revert s. induction readings as [|[now o] rest IH]; intros s HQ Hs; simpl; [done|].
  apply Forall_cons in HQ as [Ho Hrest].
  destruct (time_gt now (nextTimestep s)).
  - apply IH; [done|]. by apply P_tick.
  - by intros [= <-].
Qed.

Lemma startGame_invariant now readings s s' :
  Forall Q readings.*2 → P s → startGame K now readings s = Some s' → P s'.
Proof.
  intros HQ Hs. unfold startGame.
  destruct (startGame_loop K readings _) as [s1|] eqn:Hloop; [|done].
  simpl. intros [= <-]. apply P_immediates.
  eapply startGame_loop_invariant; [exact HQ| |exact Hloop].
  by apply P_nextTimestep.
Qed.

Lemma step_invariant e s s' :
  Forall Q (event_outcomes e) → P s → step K e s = Some s' → P s'.
Proof.
  intros HQ Hs. destruct e; simpl in *.
  - intros [= <-]. by apply P_connection.
  - intros [= <-]. by apply P_newChip.
  - intros [= <-]. by apply P_emit.
  - intros [= <-]. by apply P_emit.
  - intros [= <-]. case_bool_decide; [by apply P_interval|done].
  - by apply startGame_invariant.
  - destruct (immediates s); [by intros [= <-]|].
    apply startGame_invariant; [done|]. by apply P_immediates.
Qed.

Lemma run_invariant es s s' :
  Forall Q (es ≫= event_outcomes) → P s → run K es s = Some s' → P s'.
Proof.
  revert s. induction es as [|e es IH]; intros s HQ Hs; simpl.
  - by intros [= <-].
  - simpl in HQ. apply Forall_app in HQ as [He Hes].
    destruct (step K e s) as [s1|] eqn:Hstep; [|done]. simpl.
    apply IH; [done|]. by eapply step_invariant.
Qed.

End Invariance.

(** ** The peg array and the chip registry *)

Lemma pegs_ok_transfer s s' :
  pegs s' = pegs s → (nextRef s ≤ nextRef s')%nat →
  (∀ l : loc, (l < nextRef s)%nat → oid (heap s' !!! l) = oid (heap s !!! l)) →
  pegs_ok s → pegs_ok s'.
Proof.
  intros Hpegs Hnext Hoid Hok i Hi. rewrite Hpegs in Hi.
  destruct (Hok i Hi) as (l & Hl & Hid & Hlt).
  exists l. rewrite Hpegs, Hoid by done. repeat split; [done..|lia].
Qed.

Lemma pegs_ok_allocated s l :
  pegs_ok s → Some l ∈ pegs s → (l < nextRef s)%nat.
Proof.
  intros Hok [i Hi]%list_elem_of_lookup.
  destruct (Hok i) as (l' & Hl' & _ & Hlt); [by eapply lookup_lt_Some|].
  congruence.
Qed.

(** Operations that leave the store alone keep both invariants. *)
Lemma store_frame s s' :
  heap s' = heap s → chips s' = chips s → pegs s' = pegs s →
  (nextRef s ≤ nextRef s')%nat →
  (pegs_ok s → pegs_ok s') ∧ (registry_ok s → registry_ok s').
Proof.
  intros Hheap Hchips Hpegs Hnext. split.
  - apply pegs_ok_transfer; [done..|]. intros l _. by rewrite Hheap.
  - intros Hreg k l. rewrite Hchips, Hheap, Hpegs. intros Hk.
    destruct (Hreg k l Hk) as (? & ? & ?). repeat split; [done..|lia].
Qed.

Lemma spawn_store input s :
  heap (spawn input s)
  = <[nextRef s := {| oid := input_id input; ownerId := input_ownerId input;
                      body := S (nextRef s) |}]> (heap s)
  ∧ chips (spawn input s)
    = <[combinedId (input_ownerId input) (input_id input) := nextRef s]> (chips s)
  ∧ world (spawn input s) = {[S (nextRef s)]} ∪ world s
  ∧ nextRef (spawn input s) = S (S (nextRef s))
  ∧ pegs (spawn input s) = pegs s.
Proof.
  unfold spawn, new_Chip, new_Obj, addToEngine, World_add. simpl.
  by rewrite lookup_total_insert_eq.
Qed.

Lemma spawn_pegs_ok input s : pegs_ok s → pegs_ok (spawn input s).
Proof.
  destruct (spawn_store input s) as (Hheap & _ & _ & Hnext & Hpegs).
  apply pegs_ok_transfer; [done|lia|].
  intros l Hl. rewrite Hheap, lookup_total_insert_ne; [done|lia].
Qed.

Lemma spawn_registry_ok input s :
  pegs_ok s → registry_ok s → registry_ok (spawn input s).
Proof.
  intros Hpegs Hreg k l.
  destruct (spawn_store input s) as (-> & -> & _ & -> & ->).
  rewrite lookup_insert. case_decide as Hk.
  - intros [= <-]. rewrite lookup_total_insert_eq. simpl.
    repeat split; [done| |lia].
    intros Hin%(pegs_ok_allocated _ _ Hpegs). lia.
  - intros Hl. destruct (Hreg k l Hl) as (Hkey & Hnot & Hlt).
    rewrite lookup_total_insert_ne by lia. repeat split; [done..|lia].
Qed.

Lemma set_inputBuffer_ok rest s :
  (pegs_ok s → pegs_ok (set_inputBuffer rest s))
  ∧ (registry_ok s → registry_ok (set_inputBuffer rest s)).
Proof. by apply store_frame. Qed.

Lemma drain_ok pending s :
  pegs_ok s ∧ registry_ok s →
  pegs_ok (drain pending s) ∧ registry_ok (drain pending s).
Proof.
  apply (drain_ind (λ s', pegs_ok s' ∧ registry_ok s')).
  intros input rest s' [Hp Hr].
  apply (proj1 (set_inputBuffer_ok rest s')) in Hp.
  apply (proj2 (set_inputBuffer_ok rest s')) in Hr.
  split; [by apply spawn_pegs_ok|by apply spawn_registry_ok].
Qed.

Lemma drain_pegs_ok pending s : pegs_ok s → pegs_ok (drain pending s).
Proof.
  apply (drain_ind pegs_ok). intros input rest s' Hp.
  apply spawn_pegs_ok. by apply (proj1 (set_inputBuffer_ok rest s')).
Qed.

Lemma collide_pegs_ok pair s : pegs_ok s → pegs_ok (collide pair s).
Proof.
  destruct pair as [bodyA bodyB].
  destruct (collide_control (bodyA, bodyB) s) as (_&_&_&_&_&_&_&_&_& Hpegs &_).
  apply pegs_ok_transfer; [done|by rewrite collide_nextRef|].
  intros l _.
  destruct (decide (label bodyA = "peg")) as [Hpeg|Hpeg].
  { destruct (collide_peg bodyA bodyB s Hpeg) as (-> & _).
    destruct (decide (parentObject bodyA = l)) as [->|Hne].
    - by rewrite lookup_total_insert_eq.
    - by rewrite lookup_total_insert_ne. }
  destruct (decide (label bodyA = "ground")) as [Hground|Hground].
  { by destruct (collide_ground bodyA bodyB s Hground) as (-> & _). }
  by rewrite collide_other.
Qed.

Lemma collide_registry_ok pair s :
  (label pair.1 = "peg" → Some (parentObject pair.1) ∈ pegs s) →
  registry_ok s → registry_ok (collide pair s).
Proof.
  destruct pair as [bodyA bodyB]. simpl. intros Hpair Hreg k l Hk.
  destruct (collide_control (bodyA, bodyB) s) as (_&_&_&_&_&_&_&_&_& Hpegs &_).
  rewrite Hpegs, collide_nextRef.
  destruct (Hreg k l (collide_chips_sub _ _ _ _ Hk)) as (Hkey & Hnot & Hlt).
  repeat split; [|done..].
  destruct (decide (label bodyA = "peg")) as [Hpeg|Hpeg].
  { destruct (collide_peg bodyA bodyB s Hpeg) as (-> & _).
    rewrite lookup_total_insert_ne; [done|].
    intros Heq. apply Hnot. rewrite <- Heq. by apply Hpair. }
  destruct (decide (label bodyA = "ground")) as [Hground|Hground].
  { by destruct (collide_ground bodyA bodyB s Hground) as (-> & _). }
  by rewrite collide_other.
Qed.

Lemma onCollisionStart_pegs_ok pairs s :
  pegs_ok s → pegs_ok (onCollisionStart pairs s).
Proof. apply (onCollisionStart_ind pegs_ok). intros; by apply collide_pegs_ok. Qed.

Lemma onCollisionStart_registry_ok pairs s :
  pairs_ok s pairs → registry_ok s → registry_ok (onCollisionStart pairs s).
Proof.
  unfold pairs_ok, onCollisionStart. revert s.
  induction pairs as [|pair pairs IH]; intros s Hpairs Hreg; simpl; [done|].
  apply Forall_cons in Hpairs as [Hpair Hrest].
  apply IH; [|by apply collide_registry_ok].
  destruct (collide_control pair s) as (_&_&_&_&_&_&_&_&_& -> &_). done.
Qed.

Lemma referee_store s :
  heap (referee s) = heap s ∧ chips (referee s) = chips s
  ∧ pegs (referee s) = pegs s ∧ world (referee s) = world s
  ∧ kinematics (referee s) = kinematics s
  ∧ (nextRef s ≤ nextRef (referee s))%nat.
Proof.
  unfold referee, detectWinner. by_cases; repeat split; try done; lia.
Qed.

Lemma intake_ok s :
  (pegs_ok s → pegs_ok (intake s))
  ∧ (pegs_ok s → registry_ok s → registry_ok (intake s))
  ∧ pegs (intake s) = pegs s.
Proof.
  unfold intake. set (s1 := set_frame (frame s + 1) s).
  assert (H1 : (pegs_ok s → pegs_ok s1) ∧ (registry_ok s → registry_ok s1))
    by (by apply store_frame).
  destruct H1 as [Hp Hr].
  destruct (negb (bool_decide (inputBuffer s1 = []))); [|by auto].
  unfold processInputBuffer. split; [|split].
  - intros Hpegs. by apply drain_pegs_ok, Hp.
  - intros Hpegs Hreg. apply drain_ok. split; [by apply Hp|by apply Hr].
  - by destruct (drain_control (inputBuffer s1) s1) as (_&_&_&_&_&_&_&_&_& -> &_).
Qed.

Lemma Engine_update_ok o s :
  (pegs_ok s → pegs_ok (Engine_update o s))
  ∧ (pairs_ok s (out_pairs o) → registry_ok s → registry_ok (Engine_update o s)).
Proof.
  unfold Engine_update.
  set (s1 := set_kinematics (out_kinematics o ∪ kinematics s) s).
  assert (H1 : (pegs_ok s → pegs_ok s1) ∧ (registry_ok s → registry_ok s1))
    by (by apply store_frame).
  destruct H1 as [Hp Hr]. split.
  - intros H. by apply onCollisionStart_pegs_ok, Hp.
  - intros Hpairs H. apply onCollisionStart_registry_ok; [done|by apply Hr].
Qed.

Lemma referee_ok s :
  (pegs_ok s → pegs_ok (referee s)) ∧ (registry_ok s → registry_ok (referee s)).
Proof. destruct (referee_store s) as (?&?&?&?&?&?). by apply store_frame. Qed.

Lemma broadcastSnapshot_ok snap s :
  (pegs_ok s → pegs_ok (broadcastSnapshot snap s))
  ∧ (registry_ok s → registry_ok (broadcastSnapshot snap s)).
Proof.
  destruct (broadcastSnapshot_same snap s) as (Hc & _ & ? & ? & _ & _ & Hn & _).
  destruct Hc as (_&_&_&_&_&_&_&_&_& ? &_).
  apply store_frame; [done..|]. by rewrite Hn.
Qed.

Lemma onNewChip_ok chipInfo s :
  (pegs_ok s → pegs_ok (onNewChip chipInfo s))
  ∧ (registry_ok s → registry_ok (onNewChip chipInfo s)).
Proof. by apply store_frame. Qed.

Section Board.

Context (K : Constants).

Lemma tick_pegs o s : pegs (tick K o s) = pegs s.
Proof.
  unfold tick, generateSnapshot. simpl.
  match goal with
  | |- pegs (broadcastSnapshot ?snap ?s0) = _ =>
      destruct (broadcastSnapshot_same snap s0) as ((_&_&_&_&_&_&_&_&_& -> &_) & _)
  end.
  unfold simulate. destruct (referee_store (Engine_update o (intake s))) as (_&_& -> &_).
  destruct (Engine_update_control o (intake s)) as (_&_&_&_&_&_&_&_&_& -> &_).
  apply intake_ok.
Qed.

Lemma simulate_ok o s :
  (pegs_ok s → pegs_ok (simulate o s))
  ∧ (pairs_ok s (out_pairs o) → pegs_ok s → registry_ok s →
     registry_ok (simulate o s)).
Proof.
  unfold simulate. destruct (intake_ok s) as (Hip & Hir & Hpegs). split.
  - intros H. by apply referee_ok, Engine_update_ok, Hip.
  - intros Hpairs Hp Hr. apply referee_ok, Engine_update_ok; [|by apply Hir].
    unfold pairs_ok in *. by rewrite Hpegs.
Qed.

Lemma tick_ok o s :
  (pegs_ok s → pegs_ok (tick K o s))
  ∧ (pairs_ok s (out_pairs o) → pegs_ok s → registry_ok s →
     registry_ok (tick K o s)).
Proof.
  destruct (simulate_ok o s) as [Hp Hr].
  unfold tick, generateSnapshot. simpl.
  match goal with
  | |- (_ → pegs_ok (set_nextTimestep ?t ?s1)) ∧ _ =>
      assert (H1 : (pegs_ok s1 → pegs_ok (set_nextTimestep t s1))
                   ∧ (registry_ok s1 → registry_ok (set_nextTimestep t s1)))
        by (by apply store_frame);
      destruct H1 as [Htp Htr]
  end.
  split.
  - intros H. by apply Htp, broadcastSnapshot_ok, Hp.
  - intros Hpairs H1 H2. by apply Htr, broadcastSnapshot_ok, Hr.
Qed.

Lemma simulate_pegs o s : pegs (simulate o s) = pegs s.
Proof.
  unfold simulate. destruct (referee_store (Engine_update o (intake s))) as (_&_& -> &_).
  destruct (Engine_update_control o (intake s)) as (_&_&_&_&_&_&_&_&_& -> &_).
  apply intake_ok.
Qed.

(** What a tick is made of: the simulation, then the snapshot of the state
    it reached, broadcast, then the deadline of the next tick. *)
Lemma tick_unfold o s :
  tick K o s
  = set_nextTimestep
      (time_add (nextTimestep (broadcastSnapshot (snapshot_of (simulate o s))
                                 (simulate o s))) (TIMESTEP K))
      (broadcastSnapshot (snapshot_of (simulate o s)) (simulate o s)).
Proof. reflexivity. Qed.

Lemma ticks_pegs_ok os s :
  pegs_ok s → pegs_ok (ticks K os s) ∧ pegs (ticks K os s) = pegs s.
Proof.
  unfold ticks. revert s. induction os as [|o os IH]; intros s Hok; simpl; [done|].
  destruct (IH (tick K o s)) as [Hok' Hpegs]; [by apply tick_ok|].
  split; [done|]. by rewrite Hpegs, tick_pegs.
Qed.

(** The peg array never changes after [init], and stays well formed
    whatever the physics engine reports. *)
Lemma run_pegs_ok es s s' :
  pegs_ok s → run K es s = Some s' → pegs_ok s' ∧ pegs s' = pegs s.
Proof.
  intros Hok Hrun.
  apply (run_invariant K (λ s', pegs_ok s' ∧ pegs s' = pegs s) (λ _, True))
    with (es := es) (s := s); [..|by apply Forall_true|done|done].
  - intros o s1 _ [H1 H2]. split; [by apply tick_ok|]. by rewrite tick_pegs.
  - intros t s1 [H1 H2]. split; [|done]. revert H1. by apply store_frame.
  - intros n s1 [H1 H2]. split; [|done]. revert H1. by apply store_frame.
  - intros sock s1 [H1 H2]. split; [|done]. revert H1. by apply store_frame.
  - intros c s1 [H1 H2]. split; [|done]. revert H1. by apply store_frame.
  - intros sock msg s1 [H1 H2]. split; [|done]. revert H1. by apply store_frame.
  - intros s1 [H1 H2]. split; [|done]. revert H1. by apply store_frame.
Qed.

(** The registry stays consistently keyed as long as the bodies the
    engine labels ['peg'] are pegs of the board. *)
Lemma run_registry_ok es s s' :
  Forall (λ o, pairs_ok s (out_pairs o)) (es ≫= event_outcomes) →
  pegs_ok s → registry_ok s → run K es s = Some s' →
  pegs_ok s' ∧ registry_ok s' ∧ pegs s' = pegs s.
Proof.
  intros Hpairs Hok Hreg Hrun.
  apply (run_invariant K (λ s', pegs_ok s' ∧ registry_ok s' ∧ pegs s' = pegs s)
           (λ o, pairs_ok s (out_pairs o)))
    with (es := es) (s := s); [..|done|done|done].
  - intros o s1 Ho (H1 & H2 & H3). split; [|split].
    + by apply tick_ok.
    + apply tick_ok; [|done..]. unfold pairs_ok in *. by rewrite H3.
    + by rewrite tick_pegs.
  - intros t s1 (H1 & H2 & H3). split; [|split]; [..|done].
    + revert H1. by apply store_frame.
    + revert H2. by apply store_frame.
  - intros n s1 (H1 & H2 & H3). split; [|split]; [..|done].
    + revert H1. by apply store_frame.
    + revert H2. by apply store_frame.
  - intros sock s1 (H1 & H2 & H3). split; [|split]; [..|done].
    + revert H1. by apply store_frame.
    + revert H2. by apply store_frame.
  - intros c s1 (H1 & H2 & H3). split; [|split]; [..|done].
    + revert H1. by apply store_frame.
    + revert H2. by apply store_frame.
  - intros sock msg s1 (H1 & H2 & H3). split; [|split]; [..|done].
    + revert H1. by apply store_frame.
    + revert H2. by apply store_frame.
  - intros s1 (H1 & H2 & H3). split; [|split]; [..|done].
    + revert H1. by apply store_frame.
    + revert H2. by apply store_frame.
Qed.

End Board.

(** ** Board construction *)

Lemma array_set_end {A : Type} (v : A) (a : list (option A)) :
  array_set (length a) v a = a ++ [Some v].
Proof.
  unfold array_set. rewrite decide_False by lia.
  by rewrite Nat.sub_diag.
Qed.

Lemma new_static_store s :
  heap (new_static s) = heap s ∧ chips (new_static s) = chips s
  ∧ pegs (new_static s) = pegs s ∧ (nextRef s ≤ nextRef (new_static s))%nat.
Proof. unfold new_static, World_add. simpl. repeat split; lia. Qed.

Lemma new_statics_store {A : Type} (l : list A) s :
  let s' := fold_left (λ s _, new_static s) l s in
  heap s' = heap s ∧ chips s' = chips s ∧ pegs s' = pegs s
  ∧ (nextRef s ≤ nextRef s')%nat.
Proof.
  simpl. revert s. induction l as [|x l IH]; intros s; simpl; [by repeat split|].
  destruct (IH (new_static s)) as (-> & -> & -> & Hn).
  destruct (new_static_store s) as (-> & -> & -> & Hn'). repeat split; lia.
Qed.

Section Construction.

Context (K : Constants).

(** One more peg: it goes to the end of the array under the next id. *)
Lemma add_peg_ok (x y : Q) s :
  pegs_ok s →
  let '(peg, s1) := new_Peg (Z.of_nat (length (pegs s))) x y s in
  let s3 := addToEngine peg (set_pegs (array_set (length (pegs s)) peg (pegs s1)) s1) in
  pegs_ok s3 ∧ length (pegs s3) = S (length (pegs s)) ∧ chips s3 = chips s.
Proof.
  intros Hok. unfold new_Peg, new_Obj, addToEngine, World_add. simpl.
  rewrite array_set_end. split; [|split; [|done]].
  - intros i Hi. simpl in *. rewrite length_app in Hi. simpl in Hi.
    destruct (decide (i < length (pegs s))%nat) as [Hlt|Hge].
    + destruct (Hok i Hlt) as (l & Hl & Hid & Hl').
      exists l. rewrite lookup_app_l by done.
      rewrite lookup_total_insert_ne by lia. repeat split; [done..|lia].
    + assert (i = length (pegs s)) as -> by lia.
      exists (nextRef s). rewrite lookup_app_r by lia.
      rewrite Nat.sub_diag, lookup_total_insert_eq. simpl.
      repeat split; [done..|lia].
  - simpl. rewrite length_app. simpl. lia.
Qed.

Lemma createPegs_cols_ok row cols i s :
  pegs_ok s → length (pegs s) = i →
  let '(i', s') := createPegs_cols K row cols i s in
  pegs_ok s' ∧ length (pegs s') = i' ∧ chips s' = chips s.
Proof.
  revert i s.
  induction cols as [|col cols IH]; intros i s Hok Hlen; cbn [createPegs_cols];
    [by auto|].
  destruct ((row mod 2 =? 1)%nat && (col =? COLS K - 1)%nat); [by auto|].
  subst i.
  match goal with
  | |- context [new_Peg _ ?x ?y s] => pose proof (add_peg_ok x y s Hok) as Hadd
  end.
  destruct (new_Peg _ _ _ s) as [peg s1]. destruct Hadd as (Hok3 & Hlen3 & Hchips3).
  specialize (IH _ _ Hok3 Hlen3).
  destruct (createPegs_cols K row cols _ _) as [i' s'].
  destruct IH as (? & ? & ?). split; [|split]; [done..|congruence].
Qed.

Lemma createPegs_rows_ok rows i s :
  pegs_ok s → length (pegs s) = i →
  pegs_ok (createPegs_rows K rows i s)
  ∧ chips (createPegs_rows K rows i s) = chips s.
Proof.
  revert i s.
  induction rows as [|row rows IH]; intros i s Hok Hlen; cbn [createPegs_rows];
    [by auto|].
  pose proof (createPegs_cols_ok row (seq 1 (COLS K - 1)) i s Hok Hlen) as Hcols.
  destruct (createPegs_cols K row _ i s) as [i' s1].
  destruct Hcols as (Hok1 & Hlen1 & Hchips1).
  destruct (IH _ _ Hok1 Hlen1) as [? ?]. split; [done|congruence].
Qed.

Lemma createWalls_store s :
  chips (_createBucketWalls K (_createWalls s)) = chips s
  ∧ pegs (_createBucketWalls K (_createWalls s)) = pegs s.
Proof.
  unfold _createBucketWalls, _createWalls.
  destruct (new_statics_store (seq 1 (COLS K - 1))
              (new_static (new_static (new_static s)))) as (_ & -> & -> & _).
  destruct (new_static_store (new_static (new_static s))) as (_ & -> & -> & _).
  destruct (new_static_store (new_static s)) as (_ & -> & -> & _).
  by destruct (new_static_store s) as (_ & -> & -> & _).
Qed.

Lemma createPegs_ok s :
  pegs s = [] → pegs_ok (_createPegs K s) ∧ chips (_createPegs K s) = chips s.
Proof.
  intros Hpegs. unfold _createPegs. apply createPegs_rows_ok.
  - intros i Hi. rewrite Hpegs in Hi. simpl in Hi. lia.
  - by rewrite Hpegs.
Qed.

Lemma createTriangles_ok s :
  pegs_ok s → pegs_ok (_createTriangles s) ∧ chips (_createTriangles s) = chips s.
Proof.
  intros Hok. unfold _createTriangles.
  destruct (new_statics_store (seq 0 6) s) as (Hh & Hc & Hp & Hn).
  split; [|done]. revert Hok. by apply store_frame.
Qed.

Lemma createEnvironment_ok s :
  pegs s = [] →
  pegs_ok (createEnvironment K s) ∧ chips (createEnvironment K s) = chips s.
Proof.
  intros Hpegs. unfold createEnvironment.
  destruct (createWalls_store s) as [Hc Hp].
  destruct (createPegs_ok (_createBucketWalls K (_createWalls s))) as [Hok Hc'];
    [by rewrite Hp|].
  destruct (createTriangles_ok _ Hok) as [Hok' Hc''].
  split; [done|]. by rewrite Hc'', Hc', Hc.
Qed.

Lemma set_playerId_ok n s :
  (pegs_ok s → pegs_ok (set_playerId n s))
  ∧ (registry_ok s → registry_ok (set_playerId n s))
  ∧ chips (set_playerId n s) = chips s.
Proof. split; [|split; [|done]]; by apply store_frame. Qed.

(** [init] leaves a well-formed peg array and an empty, hence consistent,
    registry, whatever state it starts from. *)
Lemma init_ok s :
  pegs_ok (init K s) ∧ registry_ok (init K s) ∧ chips (init K s) = ∅.
Proof.
  unfold init.
  destruct (createEnvironment_ok
              (initializeScore K (set_winner false (set_pegs [] (set_chips ∅ s)))))
    as [Hok Hc]; [done|].
  destruct (set_playerId_ok 0%nat (createEnvironment K
              (initializeScore K (set_winner false (set_pegs [] (set_chips ∅ s))))))
    as (Hp & _ & Hchips).
  assert (Hempty : chips (initializeScore K
            (set_winner false (set_pegs [] (set_chips ∅ s)))) = ∅) by done.
  rewrite Hc, Hempty in Hchips.
  split; [by apply Hp|split; [|exact Hchips]].
  intros k l Hk. rewrite Hchips in Hk. by rewrite lookup_empty in Hk.
Qed.

End Construction.

(** ** Timers *)

(** With [this.loop] unset, [detectWinner] can only set the winner flag:
    [stopGame] finds no timer to clear. *)
Lemma detectWinner_unset s :
  loop s = None →
  detectWinner s = s ∨ detectWinner s = set_winner true s.
Proof.
  intros Hloop. unfold detectWinner.
  destruct (existsb (λ sc, number_ge sc (targetScore s)) (map_to_list (score s)).*2);
    [right|by left].
  by apply stopGame_unset.
Qed.

(** The win check and the timer start leave the target score alone, keep
    the timers there are, and add one exactly when none was started yet. *)
Lemma referee_timer s :
  loop s = None →
  loop (referee s) = None
  ∧ targetScore (referee s) = targetScore s
  ∧ targetScoreInterval (referee s) = true
  ∧ immediates (referee s) = immediates s
  ∧ intervals (referee s)
    = if targetScoreInterval s then intervals s else intervals s ++ [nextRef s].
Proof.
  intros Hloop. unfold referee.
  set (s1 := if negb (winner s) then detectWinner s else s).
  assert (H1 : s1 = s ∨ s1 = set_winner true s).
  { subst s1. destruct (negb (winner s)); [|by left]. by apply detectWinner_unset. }
  clearbody s1.
  destruct H1 as [-> | ->]; simpl;
    destruct (targetScoreInterval s) eqn:Hflag; simpl; by rewrite ?Hflag.
Qed.

Section Timers.

Context (K : Constants).

Lemma simulate_timer o s :
  loop s = None →
  loop (simulate o s) = None
  ∧ targetScore (simulate o s) = targetScore s
  ∧ targetScoreInterval (simulate o s) = true
  ∧ immediates (simulate o s) = immediates s
  ∧ ∃ t : timer,
      intervals (simulate o s)
      = if targetScoreInterval s then intervals s else intervals s ++ [t].
Proof.
  intros Hloop. unfold simulate.
  assert (Hin : same_control (set_frame (frame s + 1) s) (intake s)).
  { unfold intake. destruct (negb _).
    - apply drain_control.
    - apply same_control_refl. }
  pose proof (same_control_trans _ _ _ Hin (Engine_update_control o (intake s)))
    as (_ & _ & Hts & Hflag & Hl & Hiv & Him & _).
  simpl in Hts, Hflag, Hl, Hiv, Him.
  rewrite Hloop in Hl.
  destruct (referee_timer _ Hl) as (-> & -> & -> & -> & ->).
  rewrite Hts, Hflag, Hiv, Him. repeat split; [done..|]. by eexists.
Qed.

Lemma tick_timer o s :
  loop s = None →
  loop (tick K o s) = None
  ∧ targetScore (tick K o s) = targetScore s
  ∧ targetScoreInterval (tick K o s) = true
  ∧ immediates (tick K o s) = immediates s
  ∧ ∃ t : timer,
      intervals (tick K o s)
      = if targetScoreInterval s then intervals s else intervals s ++ [t].
Proof.
  intros Hloop. unfold tick, generateSnapshot. cbn [set_nextTimestep loop
    targetScore targetScoreInterval immediates intervals].
  match goal with
  | |- loop (broadcastSnapshot ?snap ?s0) = _ ∧ _ =>
      destruct (broadcastSnapshot_same snap s0)
        as ((_ & _ & -> & -> & -> & -> & -> & _) & _)
  end.
  by apply simulate_timer.
Qed.

(** The timer bookkeeping of a state: [loop] unset, frames counted from
    zero, a timer started by the first tick and only by it. *)
Lemma run_timer_inv es s s' :
  timer_inv s → run K es s = Some s' → timer_inv s'.
Proof.
  intros Hinv Hrun.
  apply (run_invariant K timer_inv (λ _, True))
    with (es := es) (s := s); [..|by apply Forall_true|done|done].
  - intros o s1 _ (Hl & Hf & Hlen & Hiff).
    destruct (tick_timer o s1 Hl) as (Hl' & _ & Hflag & _ & t & Hiv).
    unfold timer_inv. rewrite Hl', Hflag, Hiv, tick_frame.
    split; [done|]. split; [lia|]. split; [|split; [lia|done]].
    destruct (targetScoreInterval s1); [done|].
    rewrite length_app, Hlen. done.
  - by intros t s1 ?.
  - by intros n s1 ?.
  - by intros sock s1 ?.
  - by intros c s1 ?.
  - by intros sock msg s1 ?.
  - by intros s1 ?.
Qed.

(** A tick leaves exactly one timer: it starts one if none was started
    yet and otherwise keeps the one there is. *)
Lemma tick_one_timer o s :
  timer_inv s →
  (0 < frame s → intervals (tick K o s) = intervals s)
  ∧ ∃ t : timer, intervals (tick K o s) = [t].
Proof.
  intros (Hl & Hf & Hlen & Hiff).
  destruct (tick_timer o s Hl) as (_ & _ & _ & _ & t & Hiv).
  rewrite Hiv. destruct (targetScoreInterval s) eqn:Hflag.
  - split; [done|]. destruct (intervals s) as [|t0 [|t1 rest]]; [done| |done].
    by exists t0.
  - split.
    + intros Hframe. apply Hiff in Hframe. discriminate Hframe.
    + destruct (intervals s) as [|t0 rest]; [|done]. by exists t.
Qed.

(** Each elapsed interval of an active timer takes one point off the
    target score and leaves the timers as they are. *)
Lemma interval_events (N : nat) (t : timer) s :
  t ∈ intervals s →
  ∃ s' : ServerEngine,
    run K (replicate N (EInterval t)) s = Some s'
    ∧ elapsed K (replicate N (EInterval t)) s = N
    ∧ intervals s' = intervals s
    ∧ targetScore s' = targetScore s - Z.of_nat N.
Proof.
  revert s. induction N as [|N IH]; intros s Ht.
  - exists s. cbn [replicate run elapsed]. repeat split; [done..|lia].
  - cbn [replicate run elapsed step]. rewrite !bool_decide_eq_true_2 by done.
    destruct (IH (onInterval s) Ht) as (s' & Hrun & Helapsed & Hiv & Htarget).
    exists s'. cbn [mbind option_bind]. rewrite Hrun, Helapsed.
    split; [done|]. split; [done|]. split; [done|].
    rewrite Htarget. cbn [onInterval set_targetScore targetScore]. lia.
Qed.

Lemma startGame_timer now readings s s' :
  loop s = None → startGame K now readings s = Some s' →
  loop s' = None ∧ targetScore s' = targetScore s
  ∧ immediates s' = S (immediates s).
Proof.
  intros Hloop Hrun. unfold startGame in Hrun.
  destruct (startGame_loop K readings _) as [s1|] eqn:Hloop1; [|done].
  simpl in Hrun. injection Hrun as <-.
  apply (startGame_loop_invariant K
           (λ s', loop s' = None ∧ targetScore s' = targetScore s
                  ∧ immediates s' = immediates s) (λ _, True)) in Hloop1;
    [|
     |by apply Forall_true
     |done].
  - destruct Hloop1 as (? & ? & ?). simpl. repeat split; [done..|congruence].
  - intros o s1' _ (Hl & Ht & Hi).
    destruct (tick_timer o s1' Hl) as (-> & -> & _ & -> & _). done.
Qed.

Lemma step_timer e s s' :
  loop s = None → step K e s = Some s' →
  loop s' = None
  ∧ targetScore s' = targetScore s - Z.of_nat (elapsed K [e] s).
Proof.
  intros Hloop. destruct e; simpl; try (intros [= <-]; split; [done|simpl; lia]).
  - intros [= <-]. case_bool_decide; simpl; split; try done; lia.
  - intros Hrun. destruct (startGame_timer _ _ _ _ Hloop Hrun) as (-> & -> & _).
    rewrite Hrun. split; [done|lia].
  - destruct (immediates s) eqn:Him.
    + intros [= <-]. split; [done|lia].
    + intros Hrun. rewrite Hrun.
      apply startGame_timer in Hrun as (-> & -> & _); [|done].
      split; [done|simpl; lia].
Qed.

Lemma run_targetScore es s s' :
  loop s = None → run K es s = Some s' →
  loop s' = None
  ∧ targetScore s' = targetScore s - Z.of_nat (elapsed K es s).
Proof.
  revert s. induction es as [|e es IH]; intros s Hloop; simpl.
  - intros [= <-]. split; [done|lia].
  - destruct (step K e s) as [s1|] eqn:Hstep; [|done]. simpl.
    destruct (step_timer e s s1 Hloop Hstep) as [Hl1 Ht1].
    intros Hrun. destruct (IH s1 Hl1 Hrun) as [Hl' Ht'].
    split; [done|]. rewrite Ht', Ht1. simpl. rewrite Hstep. lia.
Qed.

End Timers.

(** ** Draining the input buffer *)

Lemma spawn_buffered input rest s :
  heap (spawn input (set_inputBuffer rest s))
  = <[nextRef s := {| oid := input_id input; ownerId := input_ownerId input;
                      body := S (nextRef s) |}]> (heap s)
  ∧ chips (spawn input (set_inputBuffer rest s))
    = <[input_key input := nextRef s]> (chips s)
  ∧ world (spawn input (set_inputBuffer rest s)) = {[S (nextRef s)]} ∪ world s
  ∧ nextRef (spawn input (set_inputBuffer rest s)) = S (S (nextRef s))
  ∧ inputBuffer (spawn input (set_inputBuffer rest s)) = rest.
Proof.
  destruct (spawn_store input (set_inputBuffer rest s)) as (? & ? & ? & ? & _).
  by repeat split.
Qed.

Lemma drain_inputBuffer pending s :
  inputBuffer (drain pending s)
  = match pending with [] => inputBuffer s | _ => [] end.
Proof.
  revert s. induction pending as [|c rest IH]; intros s; simpl; [done|].
  rewrite IH. destruct rest; [|done].
  by destruct (spawn_buffered c [] s) as (_ & _ & _ & _ & ->).
Qed.

(** Draining allocates upwards: what was in the store stays, and the
    world only grows. *)
Lemma drain_store_mono pending s :
  (nextRef s ≤ nextRef (drain pending s))%nat
  ∧ (∀ l : loc, (l < nextRef s)%nat → heap (drain pending s) !! l = heap s !! l)
  ∧ world s ⊆ world (drain pending s).
Proof.
  apply (drain_ind (λ s', (nextRef s ≤ nextRef s')%nat
                          ∧ (∀ l : loc, (l < nextRef s)%nat → heap s' !! l = heap s !! l)
                          ∧ world s ⊆ world s')); [|done].
  intros c rest s' (Hn & Hh & Hw).
  destruct (spawn_buffered c rest s') as (-> & _ & -> & -> & _).
  split; [lia|]. split.
  - intros l Hl. rewrite lookup_insert_ne by lia. by apply Hh.
  - intros h Hin. apply elem_of_union. right. by apply Hw.
Qed.

Lemma drain_lookup_other pending s k :
  k ∉ input_key <$> pending → chips (drain pending s) !! k = chips s !! k.
Proof.
  revert s. induction pending as [|c rest IH]; intros s Hk; simpl; [done|].
  rewrite fmap_cons, not_elem_of_cons in Hk. destruct Hk as [Hne Hrest].
  rewrite IH by done.
  destruct (spawn_buffered c rest s) as (_ & -> & _).
  by rewrite lookup_insert_ne.
Qed.

(** Commands with pairwise distinct fresh keys each end up registered
    under their key, with their own object and body. *)
Lemma drain_registers pending s :
  NoDup (input_key <$> pending) →
  Forall (λ c, chips s !! input_key c = None) pending →
  size (chips (drain pending s)) = (size (chips s) + length pending)%nat
  ∧ Forall (λ c, ∃ l : loc,
               chips (drain pending s) !! input_key c = Some l
               ∧ heap (drain pending s) !!! l
                 = {| oid := input_id c; ownerId := input_ownerId c; body := S l |}
               ∧ S l ∈ world (drain pending s)) pending.
Proof.
  revert s. induction pending as [|c rest IH]; intros s Hkeys Hfresh; simpl.
  { split; [lia|constructor]. }
  rewrite fmap_cons in Hkeys. apply NoDup_cons in Hkeys as [Hc Hrest].
  apply Forall_cons in Hfresh as [Hfc Hfrest].
  destruct (spawn_buffered c rest s) as (Hheap & Hchips & Hworld & Hnext & _).
  set (s1 := spawn c (set_inputBuffer rest s)) in *. clearbody s1.
  destruct (IH s1 Hrest) as [Hsize Hall].
  { rewrite Hchips. eapply Forall_impl; [apply Forall_and; split;
      [exact Hfrest|apply Forall_forall; intros d Hd; exact Hd]|].
    intros d [Hfd Hd]. simpl in *. rewrite lookup_insert_ne; [done|].
    intros Heq. apply Hc. rewrite Heq. by apply list_elem_of_fmap_2. }
  split.
  - rewrite Hsize, Hchips, map_size_insert_None by done. lia.
  - constructor; [|done].
    destruct (drain_store_mono rest s1) as (_ & Hh & Hw).
    exists (nextRef s). split; [|split].
    + rewrite drain_lookup_other by done. rewrite Hchips.
      apply lookup_insert_eq.
    + apply lookup_total_correct. rewrite Hh by lia. rewrite Hheap.
      apply lookup_insert_eq.
    + apply Hw. rewrite Hworld. apply elem_of_union. left.
      by apply elem_of_singleton.
Qed.

(** For player identifiers the combined key determines the pair. *)
Lemma input_key_inj c d :
  valid_player (input_ownerId c) → valid_player (input_ownerId d) →
  input_key c = input_key d → input_pair c = input_pair d.
Proof.
  intros (oc & Hc & Hoc) (od & Hd & Hod). unfold input_key, input_pair.
  rewrite Hc, Hd. intros Hkey.
  apply combinedId_digit_inj in Hkey as [-> ->]; [done|lia..].
Qed.

(** ** The state [init] leaves *)

Lemma same_schedule_refl s : same_schedule s s.
Proof. by repeat split. Qed.

Lemma same_schedule_trans s1 s2 s3 :
  same_schedule s1 s2 → same_schedule s2 s3 → same_schedule s1 s3.
Proof.
  unfold same_schedule. intros H12 H23.
  destruct_and!. repeat split; congruence.
Qed.

Lemma new_static_schedule s : same_schedule s (new_static s).
Proof. by repeat split. Qed.

Lemma new_statics_schedule {A : Type} (l : list A) s :
  same_schedule s (fold_left (λ s _, new_static s) l s).
Proof.
  revert s. induction l as [|x l IH]; intros s; simpl; [apply same_schedule_refl|].
  eapply same_schedule_trans; [apply new_static_schedule|apply IH].
Qed.

Section InitialState.

Context (K : Constants).

Lemma createPegs_cols_schedule row cols i s :
  same_schedule s (createPegs_cols K row cols i s).2.
Proof.
  revert i s. induction cols as [|col cols IH]; intros i s; cbn [createPegs_cols];
    [apply same_schedule_refl|].
  destruct ((row mod 2 =? 1)%nat && (col =? COLS K - 1)%nat);
    [apply same_schedule_refl|].
  match goal with
  | |- context [new_Peg ?a ?x ?y s] =>
      assert (Hnew : same_schedule s (new_Peg a x y s).2) by (by repeat split);
      destruct (new_Peg a x y s) as [peg s1]
  end.
  eapply same_schedule_trans; [exact Hnew|].
  eapply same_schedule_trans; [|apply IH]. by repeat split.
Qed.

Lemma createPegs_rows_schedule rows i s :
  same_schedule s (createPegs_rows K rows i s).
Proof.
  revert i s. induction rows as [|row rows IH]; intros i s; cbn [createPegs_rows];
    [apply same_schedule_refl|].
  pose proof (createPegs_cols_schedule row (seq 1 (COLS K - 1)) i s) as Hcols.
  destruct (createPegs_cols K row _ i s) as [i' s1].
  eapply same_schedule_trans; [exact Hcols|apply IH].
Qed.

Lemma createEnvironment_schedule s : same_schedule s (createEnvironment K s).
Proof.
  unfold createEnvironment, _createTriangles, _createPegs, _createBucketWalls,
    _createWalls.
  eapply same_schedule_trans; [|apply new_statics_schedule].
  eapply same_schedule_trans; [|apply createPegs_rows_schedule].
  eapply same_schedule_trans; [|apply new_statics_schedule].
  eapply same_schedule_trans; [|apply new_static_schedule].
  eapply same_schedule_trans; [|apply new_static_schedule].
  apply new_static_schedule.
Qed.

Lemma set_playerId_schedule n s : same_schedule s (set_playerId n s).
Proof. by repeat split. Qed.

Lemma initializeScore_schedule s :
  frame (initializeScore K (set_winner false (set_pegs [] (set_chips ∅ s)))) = frame s
  ∧ targetScore (initializeScore K (set_winner false (set_pegs [] (set_chips ∅ s))))
    = TARGET_SCORE K
  ∧ targetScoreInterval (initializeScore K (set_winner false (set_pegs [] (set_chips ∅ s))))
    = false
  ∧ loop (initializeScore K (set_winner false (set_pegs [] (set_chips ∅ s)))) = loop s
  ∧ intervals (initializeScore K (set_winner false (set_pegs [] (set_chips ∅ s))))
    = intervals s
  ∧ winner (initializeScore K (set_winner false (set_pegs [] (set_chips ∅ s)))) = false.
Proof. by repeat split. Qed.

(** After [init]: the target at its constant, no timer started, no
    winner, and the frame counter, [loop] and the timers as they were. *)
Lemma init_schedule s :
  frame (init K s) = frame s ∧ targetScore (init K s) = TARGET_SCORE K
  ∧ targetScoreInterval (init K s) = false ∧ loop (init K s) = loop s
  ∧ intervals (init K s) = intervals s ∧ winner (init K s) = false.
Proof.
  unfold init.
  pose proof (same_schedule_trans _ _ _
                (createEnvironment_schedule
                   (initializeScore K (set_winner false (set_pegs [] (set_chips ∅ s)))))
                (set_playerId_schedule 0%nat _))
    as (-> & -> & -> & -> & -> & -> & _).
  apply initializeScore_schedule.
Qed.

Lemma init_timer_inv : timer_inv (init K new_ServerEngine).
Proof.
  destruct (init_schedule new_ServerEngine) as (Hf & _ & Hflag & Hl & Hiv & _).
  unfold timer_inv. rewrite Hf, Hflag, Hl, Hiv. simpl.
  repeat split; try done; lia.
Qed.

End InitialState.

(** * The claims *)

(** C1 (code defect).  The scoring rule says: when a peg passes from an
    owned player A to another player B, B gains one point and A loses one,
    so the total over the four players is unchanged.  At the board with one
    peg held by player 0, with one point, the chip of player 1 touches the
    peg while no winner is declared: player 1 gains the point, player 0
    keeps its own, and the total grows by one.  The peg does end up owned
    by player 1. *)
Theorem C1_player_zero_keeps_its_point :
  winner peg_taken = false
  ∧ ownerId (heap peg_taken !!! 4%nat) = VNum 0
  ∧ ownerId (heap peg_taken !!! 14%nat) = VNum 1
  ∧ slot peg_taken 0 = Some (Int 1)
  ∧ slot peg_taken 1 = Some (Int 0)
  ∧ slot (onCollisionStart [(peg_body 4, chip_body 14)] peg_taken) 1 = Some (Int 1)
  ∧ slot (onCollisionStart [(peg_body 4, chip_body 14)] peg_taken) 0 = Some (Int 1)
  ∧ total_score (onCollisionStart [(peg_body 4, chip_body 14)] peg_taken)
    = total_score peg_taken + 1
  ∧ ownerId (heap (onCollisionStart [(peg_body 4, chip_body 14)] peg_taken) !!! 4%nat)
    = VNum 1.
Proof. vm_compute. by repeat split. Qed.

(** C2, as stated, fails: the commands (ownerId 1, id 23) and (ownerId 12,
    id 3) are distinct pairs with the same combined key ["123"], so after
    the drain the registry of the fresh board holds one chip, not two. *)
Lemma C2_distinct_pairs_one_key :
  chips (onNewChip (drop 12 3) (onNewChip (drop 1 23) board)) = ∅
  ∧ inputBuffer (onNewChip (drop 12 3) (onNewChip (drop 1 23) board))
    = [drop 1 23; drop 12 3]
  ∧ input_pair (drop 1 23) ≠ input_pair (drop 12 3)
  ∧ input_key (drop 1 23) = input_key (drop 12 3)
  ∧ size (chips (processInputBuffer
                   (onNewChip (drop 12 3) (onNewChip (drop 1 23) board))))
    = 1%nat.
Proof. vm_compute. by repeat split. Qed.

(** C2 (amended).  For every sequence of newChip commands whose ownerIds
    are player identifiers, integers in [0,4), and whose (ownerId, id)
    pairs are pairwise distinct, one full drain of the buffer into an empty
    registry leaves exactly that many chips; each is retrievable by its
    combined key, carries the command's id and owner, has its body in the
    physics world, and no two commands share a key. *)
Theorem C2_drain_registers_every_chip (s : ServerEngine) :
  chips s = ∅ →
  Forall (λ c, valid_player (input_ownerId c)) (inputBuffer s) →
  NoDup (input_pair <$> inputBuffer s) →
  size (chips (processInputBuffer s)) = length (inputBuffer s)
  ∧ inputBuffer (processInputBuffer s) = []
  ∧ Forall (λ c, ∃ l : loc,
              chips (processInputBuffer s) !! input_key c = Some l
              ∧ oid (heap (processInputBuffer s) !!! l) = input_id c
              ∧ ownerId (heap (processInputBuffer s) !!! l) = input_ownerId c
              ∧ body (heap (processInputBuffer s) !!! l) ∈ world (processInputBuffer s))
      (inputBuffer s)
  ∧ NoDup (input_key <$> inputBuffer s).
Proof.
  intros Hempty Hvalid Hpairs. unfold processInputBuffer.
  assert (Hkeys : NoDup (input_key <$> inputBuffer s)).
  { apply NoDup_fmap_2_strong; [|by eapply NoDup_fmap_1].
    intros c d Hc Hd Hkey.
    rewrite Forall_forall in Hvalid.
    pose proof (input_key_inj c d (Hvalid c Hc) (Hvalid d Hd) Hkey) as Hpair.
    apply list_elem_of_lookup in Hc as [i Hi], Hd as [j Hj].
    assert (i = j) as ->; [|congruence].
    eapply NoDup_lookup; [exact Hpairs| |].
    - rewrite list_lookup_fmap, Hi. reflexivity.
    - rewrite list_lookup_fmap, Hj. simpl. by rewrite Hpair. }
  destruct (drain_registers (inputBuffer s) s Hkeys) as [Hsize Hall].
  { apply Forall_forall. intros c _. by rewrite Hempty, lookup_empty. }
  split; [|split; [|split; [|done]]].
  - rewrite Hsize, Hempty, map_size_empty. done.
  - rewrite drain_inputBuffer. by destruct (inputBuffer s).
  - eapply Forall_impl; [exact Hall|].
    intros c (l & Hl & Hobj & Hw). exists l. rewrite Hobj. by repeat split.
Qed.

Lemma C2_drain_registers_every_chip_witness :
  size (chips (processInputBuffer (onNewChip (drop 1 0) (onNewChip (drop 0 0) board))))
  = length (inputBuffer (onNewChip (drop 1 0) (onNewChip (drop 0 0) board))).
Proof.
  assert (Hbuffer : inputBuffer (onNewChip (drop 1 0) (onNewChip (drop 0 0) board))
                    = [drop 0 0; drop 1 0]) by (vm_compute; reflexivity).
  apply (C2_drain_registers_every_chip
           (onNewChip (drop 1 0) (onNewChip (drop 0 0) board))).
  - vm_compute. reflexivity.
  - rewrite Hbuffer. repeat constructor.
    + exists 0. split; [reflexivity|lia].
    + exists 1. split; [reflexivity|lia].
  - rewrite Hbuffer. apply NoDup_cons. split.
    + intros Hin. apply list_elem_of_singleton in Hin. discriminate Hin.
    + apply NoDup_singleton.
Defined.

(** C3 (code defect).  Detecting a winner latches the flag and calls
    [stopGame], but [stopGame] clears the timer named by [this.loop], a
    field nothing assigns, and [startGame] ends in [setImmediate] whatever
    the flag.  In the sudden-death match the second tick declares player 0
    the winner; afterwards the decay timer is still active and a callback
    is still pending, the next elapsed interval lowers the target score
    from 1 to 0, and the pending callback runs a third tick and schedules
    itself again. *)
Theorem C3_stop_leaves_timer_and_loop_running :
  run sudden_death opening (init sudden_death new_ServerEngine)
  = Some (play sudden_death opening)
  ∧ winner (play sudden_death opening) = true
  ∧ frame (play sudden_death opening) = 2
  ∧ targetScore (play sudden_death opening) = 1
  ∧ intervals (play sudden_death opening) = [14%nat]
  ∧ immediates (play sudden_death opening) = 1%nat
  ∧ stopGame (play sudden_death opening) = play sudden_death opening
  ∧ (targetScore <$> run sudden_death aftermath (play sudden_death opening)) = Some 0
  ∧ (frame <$> run sudden_death aftermath (play sudden_death opening)) = Some 3
  ∧ (intervals <$> run sudden_death aftermath (play sudden_death opening))
    = Some [14%nat]
  ∧ (immediates <$> run sudden_death aftermath (play sudden_death opening))
    = Some 1%nat.
Proof. vm_compute. by repeat split. Qed.




(** C5.  The winner flag is a one-way latch: from a state in which it is
    set, [detectWinner] leaves it set, a batch of collision pairs of any
    kind leaves every score as it was, and whatever events follow (socket
    input, elapsed intervals, further bursts of ticks with their
    collisions) the flag stays set and the score map stays the same. *)
Theorem C5_win_latch (K : Constants) (s : ServerEngine) :
  winner s = true →
  winner (detectWinner s) = true
  ∧ (∀ pairs : list (Body * Body),
       winner (onCollisionStart pairs s) = true
       ∧ score (onCollisionStart pairs s) = score s)
  ∧ (∀ (es : list event) (s' : ServerEngine),
       run K es s = Some s' → winner s' = true ∧ score s' = score s).
Proof.
  intros Hwin. split; [by apply detectWinner_latched|]. split.
  - intros pairs. split; [|by apply onCollisionStart_score_latched].
    by destruct (onCollisionStart_control pairs s) as (_ & -> & _).
  - intros es s'. by apply run_latched.
Qed.

Lemma C5_win_latch_witness :
  winner (onCollisionStart [(peg_body 4, chip_body 15)] late) = true
  ∧ score (onCollisionStart [(peg_body 4, chip_body 15)] late) = score late.
Proof.
  apply (C5_win_latch sudden_death late).
  vm_compute. reflexivity.
Defined.

(** C6.  Every executed tick adds exactly one to the frame counter; a
    burst that goes round the loop n times, back to back, adds exactly n;
    and no event of the run ever lowers the counter. *)
Theorem C6_frame_counter (K : Constants) :
  (∀ (o : EngineOutcome) (s : ServerEngine), frame (tick K o s) = frame s + 1)
  ∧ (∀ (readings : list (Q * EngineOutcome)) (s s' : ServerEngine),
       startGame_loop K readings s = Some s' →
       frame s' = frame s + Z.of_nat (iterations K readings s))
  ∧ (∀ (e : event) (s s' : ServerEngine),
       step K e s = Some s' → frame s ≤ frame s').
Proof.
  split; [apply tick_frame|]. split.
  - apply startGame_loop_frame.
  - apply step_frame.
Qed.

Lemma C6_frame_counter_witness :
  startGame_loop demo catch_up behind
  = Some (default behind (startGame_loop demo catch_up behind))
  ∧ frame (default behind (startGame_loop demo catch_up behind)) = frame behind + 3.
Proof.
  assert (Hrun : startGame_loop demo catch_up behind
                 = Some (default behind (startGame_loop demo catch_up behind)))
    by (vm_compute; reflexivity).
  split; [exact Hrun|].
  rewrite (proj1 (proj2 (C6_frame_counter demo)) catch_up behind _ Hrun).
  vm_compute. reflexivity.
Defined.

(** C7.  Whatever pairs were processed before it, a pair whose first body
    is labelled ['peg'] leaves that peg owned by whoever the second body's
    parent object names as owner at that moment, whatever the second body's
    label and whether or not a winner is declared; with a winner declared,
    or a second body that is not a chip, the scores are not touched. *)
Theorem C7_peg_ownership_is_not_gated (before : list (Body * Body))
    (bodyA bodyB : Body) (s : ServerEngine) :
  label bodyA = "peg" →
  ownerId (heap (onCollisionStart (before ++ [(bodyA, bodyB)]) s) !!! parentObject bodyA)
  = ownerId (heap (onCollisionStart before s) !!! parentObject bodyB)
  ∧ (winner (onCollisionStart before s) = true ∨ label bodyB ≠ "chip" →
     score (onCollisionStart (before ++ [(bodyA, bodyB)]) s)
     = score (onCollisionStart before s)).
Proof.
  intros Hpeg. rewrite onCollisionStart_app, onCollisionStart_cons.
  change (onCollisionStart [] ?x) with x.
  set (s1 := onCollisionStart before s). clearbody s1. split.
  - destruct (collide_peg bodyA bodyB s1 Hpeg) as (-> & _).
    by rewrite lookup_total_insert_eq.
  - intros Hquiet. unfold collide, ground_contact, owner_contact, score_contact.
    simpl.
    assert (Hskip : String.eqb (label bodyA) "peg" && String.eqb (label bodyB) "chip"
                    && negb (winner s1) = false).
    { destruct Hquiet as [-> | Hchip%String.eqb_neq].
      - by rewrite andb_false_r.
      - by rewrite Hchip, andb_false_r. }
    rewrite Hskip, Hpeg. done.
Qed.

Lemma C7_peg_ownership_is_not_gated_witness :
  winner (onCollisionStart [] late) = true
  ∧ ownerId (heap (onCollisionStart [] late) !!! 4%nat) = VNum 0
  ∧ ownerId (heap (onCollisionStart [] late) !!! 15%nat) = VNum 1
  ∧ ownerId (heap (onCollisionStart ([] ++ [(peg_body 4, chip_body 15)]) late)
               !!! parentObject (peg_body 4))
    = ownerId (heap (onCollisionStart [] late) !!! parentObject (chip_body 15))
  ∧ score (onCollisionStart ([] ++ [(peg_body 4, chip_body 15)]) late)
    = score (onCollisionStart [] late).
Proof.
  assert (Hwin : winner (onCollisionStart [] late) = true) by (by vm_compute).
  destruct (C7_peg_ownership_is_not_gated [] (peg_body 4) (chip_body 15) late)
    as [Howner Hscore]; [reflexivity|].
  split; [exact Hwin|]. split; [by vm_compute|]. split; [by vm_compute|].
  split; [exact Howner|]. apply Hscore. left. exact Hwin.
Defined.

(** C8.  In a tick whose physics step reports a pair (ground, chip), with
    a consistently keyed registry and peg bodies that belong to pegs, the
    chip the pair names is despawned whatever the winner flag: at the end
    of the tick's simulation its body is no longer in the physics world,
    the registry has no entry under its combined key, and the snapshot
    built next lists no chip with its owner and id. *)
Theorem C8_ground_contact_despawns (o : EngineOutcome) (s : ServerEngine)
    (before after : list (Body * Body)) (ground chipBody : Body) :
  pegs_ok s → registry_ok s → pairs_ok s (out_pairs o) →
  out_pairs o = before ++ (ground, chipBody) :: after →
  label ground = "ground" →
  despawned (heap (onCollisionStart before (at_contact o s)) !!! parentObject chipBody)
    (simulate o s).
Proof.
  intros Hpegs Hreg Hpairs Hsplit Hground.
  unfold despawned, at_contact, snapshot_of.
  destruct (intake_ok s) as (Hip & Hir & Hsame).
  assert (Hreg' : registry_ok (simulate o s)).
  { apply simulate_ok; done. }
  unfold simulate in *. unfold Engine_update in *. rewrite Hsplit in *.
  set (s0 := set_kinematics (out_kinematics o ∪ kinematics (intake s)) (intake s)) in *.
  clearbody s0.
  rewrite onCollisionStart_app, onCollisionStart_cons in *.
  set (s1 := onCollisionStart before s0) in *. clearbody s1.
  set (chip := heap s1 !!! parentObject chipBody) in *.
  destruct (collide_ground ground chipBody s1 Hground) as (_ & Hchips & Hworld & _).
  fold chip in Hchips, Hworld.
  set (s2 := onCollisionStart after (collide (ground, chipBody) s1)) in *.
  assert (Hgone : chips s2 !! combinedId (ownerId chip) (oid chip) = None).
  { apply onCollisionStart_chips_shrink. rewrite Hchips. apply lookup_delete_eq. }
  assert (Hout : body chip ∉ world s2).
  { apply onCollisionStart_world_shrink. rewrite Hworld.
    intros [_ Hnot]%elem_of_difference. apply Hnot. by apply elem_of_singleton. }
  clearbody s2.
  destruct (referee_store s2) as (Hh & Hc & _ & Hw & _).
  rewrite Hw, Hc. split; [done|]. split; [done|].
  intros info Hinfo [Howner Hid]. simpl in Hinfo.
  apply list_elem_of_fmap in Hinfo as (l & -> & Hl). simpl in Howner, Hid.
  apply list_elem_of_fmap in Hl as ([k l'] & -> & Hkl). simpl in *.
  apply elem_of_map_to_list in Hkl.
  destruct (Hreg' k l') as (Hkey & _); [by rewrite Hc|].
  rewrite Howner, Hid in Hkey. rewrite <- Hkey, Hgone in Hkl. done.
Qed.

Lemma C8_ground_contact_despawns_witness :
  despawned (heap (onCollisionStart [] (at_contact landing dropped))
               !!! parentObject (chip_body 12))
    (simulate landing dropped).
Proof.
  destruct (init_ok demo new_ServerEngine) as (Hpegs & Hreg & _).
  apply (C8_ground_contact_despawns landing dropped [] [] (ground_body 0) (chip_body 12)).
  - by apply onNewChip_ok.
  - by apply onNewChip_ok.
  - unfold pairs_ok. apply Forall_cons. split; [|apply Forall_nil_2].
    intros Hlabel. discriminate Hlabel.
  - reflexivity.
  - reflexivity.
Defined.

(** C9.  After [init] the target score is the constant and no timer is
    active.  In every run from there the engine has exactly one decay
    timer once a tick has been executed and none before, however many
    ticks follow, and the target score is the constant minus the number of
    decay intervals that have elapsed, without any floor.  A tick from any
    state such a run reaches, the state after [init] included, counts a
    frame and leaves exactly one timer: the first tick starts it, a later
    tick keeps the timer there is.  When the interval of that timer then
    elapses N times, the target score is N lower, N being any number, and
    the timer is still the only one. *)
Theorem C9_decay_timer (K : Constants) (es : list event) (s : ServerEngine) :
  run K es (init K new_ServerEngine) = Some s →
  targetScore (init K new_ServerEngine) = TARGET_SCORE K
  ∧ intervals (init K new_ServerEngine) = []
  ∧ length (intervals s) = (if bool_decide (0 < frame s) then 1%nat else 0%nat)
  ∧ targetScore s
    = TARGET_SCORE K - Z.of_nat (elapsed K es (init K new_ServerEngine))
  ∧ ∀ o : EngineOutcome,
      0 < frame (tick K o s)
      ∧ (0 < frame s → intervals (tick K o s) = intervals s)
      ∧ ∃ t : timer,
          intervals (tick K o s) = [t]
          ∧ ∀ N : nat, ∃ s' : ServerEngine,
              run K (replicate N (EInterval t)) (tick K o s) = Some s'
              ∧ elapsed K (replicate N (EInterval t)) (tick K o s) = N
              ∧ intervals s' = [t]
              ∧ targetScore s' = targetScore s - Z.of_nat N.
Proof.
  intros Hrun.
  destruct (init_schedule K new_ServerEngine) as (_ & Htarget & _ & Hloop & Hiv & _).
  split; [done|]. split; [done|].
  pose proof (run_timer_inv K es _ _ (init_timer_inv K) Hrun) as Hinv.
  destruct (run_targetScore K es _ _ Hloop Hrun) as [_ Hdecay].
  split; [|split; [by rewrite Hdecay, Htarget|]].
  - destruct Hinv as (_ & _ & Hlen & Hiff).
    rewrite Hlen. case_bool_decide as Hframe.
    + apply Hiff in Hframe. by rewrite Hframe.
    + destruct (targetScoreInterval s); [|done]. exfalso. by apply Hframe, Hiff.
  - intros o. destruct (tick_one_timer K o s Hinv) as (Hkept & t & Ht).
    split; [|split; [done|]].
    { rewrite tick_frame. destruct Hinv as (_ & Hframe & _). lia. }
    exists t. split; [done|]. intros N.
    destruct (interval_events K N t (tick K o s)) as (s' & HrunN & Helapsed & HivN & HtargetN).
    { rewrite Ht. by apply list_elem_of_singleton. }
    exists s'. split; [done|]. split; [done|]. split; [by rewrite HivN|].
    rewrite HtargetN. destruct Hinv as (Hl & _).
    by destruct (tick_timer K o s Hl) as (_ & -> & _).
Qed.

(** On the demo board, target 3: two ticks, then the interval of timer 12
    elapses twice.  One timer, target 1; two more intervals after another
    tick take it to -1. *)
Lemma C9_decay_timer_witness :
  (intervals (init demo new_ServerEngine) = []
   ∧ frame (play demo quiet) = 2
   ∧ intervals (play demo quiet) = [12%nat]
   ∧ elapsed demo quiet (init demo new_ServerEngine) = 2%nat
   ∧ targetScore (play demo quiet) = 1
   ∧ intervals (tick demo still (init demo new_ServerEngine)) = [12%nat]
   ∧ intervals (tick demo still (play demo quiet)) = [12%nat]
   ∧ targetScore
       (default new_ServerEngine
          (run demo (replicate 2 (EInterval 12)) (tick demo still (play demo quiet))))
     = -1)
  ∧ (targetScore (init demo new_ServerEngine) = TARGET_SCORE demo
     ∧ intervals (init demo new_ServerEngine) = []
     ∧ length (intervals (play demo quiet))
       = (if bool_decide (0 < frame (play demo quiet)) then 1%nat else 0%nat)
     ∧ targetScore (play demo quiet)
       = TARGET_SCORE demo - Z.of_nat (elapsed demo quiet (init demo new_ServerEngine))
     ∧ ∀ o : EngineOutcome,
         0 < frame (tick demo o (play demo quiet))
         ∧ (0 < frame (play demo quiet) →
            intervals (tick demo o (play demo quiet)) = intervals (play demo quiet))
         ∧ ∃ t : timer,
             intervals (tick demo o (play demo quiet)) = [t]
             ∧ ∀ N : nat, ∃ s' : ServerEngine,
                 run demo (replicate N (EInterval t)) (tick demo o (play demo quiet))
                 = Some s'
                 ∧ elapsed demo (replicate N (EInterval t)) (tick demo o (play demo quiet))
                   = N
                 ∧ intervals s' = [t]
                 ∧ targetScore s' = targetScore (play demo quiet) - Z.of_nat N).
Proof.
  split.
  - vm_compute. repeat split.
  - apply (C9_decay_timer demo quiet (play demo quiet)).
    vm_compute. reflexivity.
Defined.

(** C10.  Take any run after [init], any number of loop iterations after
    it, and the state one more iteration has simulated its way to, which is
    the state that iteration builds its snapshot from.  Building the
    snapshot hands the engine state back as it was, whatever the arguments,
    and the snapshot lists one entry per peg of the board, in the order of
    the peg array: the entry at position i is exactly the id i and the
    current owner of the peg stored there, so the ids ascend from 0. *)
Theorem C10_snapshot_pegs (K : Constants) (es : list event)
    (os : list EngineOutcome) (o : EngineOutcome) (s0 s : ServerEngine) :
  run K es (init K s0) = Some s →
  (∀ (c : gmap string loc) (p : list (option loc)) (sc : gmap string number)
     (w : bool) (t : Z) (s' : ServerEngine), (generateSnapshot c p sc w t s').2 = s')
  ∧ length (snap_pegs (snapshot_of (simulate o (ticks K os s))))
    = length (pegs (init K s0))
  ∧ ∀ i : nat, (i < length (pegs (init K s0)))%nat →
      ∃ l : loc,
        pegs (simulate o (ticks K os s)) !! i = Some (Some l)
        ∧ snap_pegs (snapshot_of (simulate o (ticks K os s))) !! i
          = Some (Some {| peg_id := Z.of_nat i;
                          peg_ownerId :=
                            ownerId (heap (simulate o (ticks K os s)) !!! l) |}).
Proof.
  intros Hrun.
  destruct (init_ok K s0) as (Hok0 & _).
  destruct (run_pegs_ok K es _ _ Hok0 Hrun) as [Hok1 Hpegs1].
  destruct (ticks_pegs_ok K os s Hok1) as [Hok2 Hpegs2].
  pose proof (proj1 (simulate_ok o (ticks K os s)) Hok2) as Hok.
  assert (Hpegs : pegs (simulate o (ticks K os s)) = pegs (init K s0)).
  { by rewrite simulate_pegs, Hpegs2. }
  set (s' := simulate o (ticks K os s)) in *. clearbody s'.
  split; [done|]. unfold snapshot_of, generateSnapshot. cbn [fst snap_pegs].
  split; [by rewrite length_map, Hpegs|].
  intros i Hi. rewrite <- Hpegs in Hi.
  destruct (Hok i Hi) as (l & Hl & Hid & _).
  exists l. split; [done|].
  rewrite list_lookup_fmap, Hl. simpl. by rewrite Hid.
Qed.

Lemma C10_snapshot_pegs_witness :
  snap_pegs (snapshot_of (simulate still
                            (ticks sudden_death [still]
                               (play sudden_death (opening ++ aftermath)))))
  = [Some {| peg_id := 0; peg_ownerId := VNum 0 |}].
Proof.
  destruct (C10_snapshot_pegs sudden_death (opening ++ aftermath) [still] still
              new_ServerEngine (play sudden_death (opening ++ aftermath)))
    as (_ & _ & Hentry).
  - vm_compute. reflexivity.
  - destruct (Hentry 0%nat) as (l & Hl & Hsnap); [vm_compute; lia|].
    assert (Hl4 : l = 4%nat).
    { vm_compute in Hl. by injection Hl as <-. }
    subst l. vm_compute in Hsnap. vm_compute. 
    reflexivity.
Defined.

(** * Further properties of the engine *)

(** ** Sockets and broadcasts *)

Lemma same_io_refl s : same_io s s.
Proof. by repeat split. Qed.

Lemma same_io_trans s1 s2 s3 : same_io s1 s2 → same_io s2 s3 → same_io s1 s3.
Proof.
  unfold same_io. intros H12 H23. destruct_and!. repeat split; congruence.
Qed.

Lemma spawn_io input rest s : same_io s (spawn input (set_inputBuffer rest s)).
Proof. by repeat split. Qed.

Lemma referee_io s : same_io s (referee s).
Proof. unfold same_io, referee, detectWinner. by_cases. Qed.

Lemma score_contact_io a b s : same_io s (score_contact a b s).
Proof.
  unfold score_contact. case_match; [|apply same_io_refl].
  unfold same_io. by_cases.
Qed.

Lemma owner_contact_io a b s : same_io s (owner_contact a b s).
Proof. unfold owner_contact. case_match; by repeat split. Qed.

Lemma ground_contact_io a b s : same_io s (ground_contact a b s).
Proof. unfold ground_contact. case_match; by repeat split. Qed.

Lemma collide_io pair s : same_io s (collide pair s).
Proof.
  unfold collide.
  eapply same_io_trans; [apply score_contact_io|].
  eapply same_io_trans; [apply owner_contact_io|].
  apply ground_contact_io.
Qed.

Lemma intake_io s : same_io s (intake s).
Proof.
  unfold intake. case_match; [|by repeat split].
  unfold processInputBuffer.
  apply (same_io_trans _ (set_frame (frame s + 1) s)); [by repeat split|].
  apply (drain_ind (same_io (set_frame (frame s + 1) s))); [|by repeat split].
  intros input rest s' Hs'. eapply same_io_trans; [exact Hs'|apply spawn_io].
Qed.

Lemma Engine_update_io o s : same_io s (Engine_update o s).
Proof.
  unfold Engine_update.
  apply (same_io_trans _ (set_kinematics (out_kinematics o ∪ kinematics s) s));
    [by repeat split|].
  apply (onCollisionStart_ind
           (same_io (set_kinematics (out_kinematics o ∪ kinematics s) s)));
    [|by repeat split].
  intros pair s' Hs'. eapply same_io_trans; [exact Hs'|apply collide_io].
Qed.

Lemma simulate_io o s : same_io s (simulate o s).
Proof.
  unfold simulate.
  eapply same_io_trans; [apply intake_io|].
  eapply same_io_trans; [apply Engine_update_io|].
  apply referee_io.
Qed.

Lemma broadcastSnapshot_outbox snap s :
  outbox (broadcastSnapshot snap s)
  = outbox s
    ++ map (λ sock, (sock, SNAPSHOT (frame s) snap (snap_score snap)
                             (snap_targetScore snap))) (knownPlayers s).
Proof.
  unfold broadcastSnapshot, Serializer_encode.
  generalize (knownPlayers s). intros socks.
  assert (Hframe : frame s = frame s) by done. revert Hframe.
  generalize s at 1 3 4. intros s0 Hframe. revert s0 Hframe.
  induction socks as [|sock socks IH]; intros s0 Hframe; simpl.
  - by rewrite app_nil_r.
  - rewrite IH by done. simpl. rewrite Hframe. by rewrite <- app_assoc.
Qed.

Lemma collide_inputBuffer pair s : inputBuffer (collide pair s) = inputBuffer s.
Proof. by_cases. Qed.

Lemma referee_inputBuffer s : inputBuffer (referee s) = inputBuffer s.
Proof. unfold referee, detectWinner. by_cases. Qed.

Lemma intake_inputBuffer s : inputBuffer (intake s) = [].
Proof.
  unfold intake. case_bool_decide as Hempty; simpl; [done|].
  unfold processInputBuffer. rewrite drain_inputBuffer. simpl.
  by destruct (inputBuffer s).
Qed.

Lemma onCollisionStart_chips_sub pairs s :
  chips (onCollisionStart pairs s) ⊆ chips s.
Proof.
  apply (onCollisionStart_ind (λ s', chips s' ⊆ chips s)); [|done].
  intros pair s' Hs'. etrans; [|exact Hs'].
  apply map_subseteq_spec. intros k l. apply collide_chips_sub.
Qed.

Section Scheduling.

Context (K : Constants).

Lemma tick_io o s :
  knownPlayers (tick K o s) = knownPlayers s
  ∧ immediates (tick K o s) = immediates s
  ∧ nextTimestep (tick K o s) = time_add (nextTimestep s) (TIMESTEP K).
Proof.
  rewrite tick_unfold. cbn [set_nextTimestep knownPlayers immediates nextTimestep].
  destruct (broadcastSnapshot_same (snapshot_of (simulate o s)) (simulate o s))
    as ((_ & _ & _ & _ & _ & _ & -> & -> & -> & _) & _).
  by destruct (simulate_io o s) as (_ & -> & -> & ->).
Qed.

Lemma startGame_loop_immediates readings s s' :
  startGame_loop K readings s = Some s' → immediates s' = immediates s.
Proof.
  revert s. induction readings as [|[now o] rest IH]; intros s; simpl; [done|].
  destruct (time_gt now (nextTimestep s)).
  - intros Hrest. rewrite (IH _ Hrest). apply tick_io.
  - by intros [= <-].
Qed.

End Scheduling.

(** ** The extras *)

(** X1.  Connections are numbered round-robin: starting from a connection
    counter n, the sockets that connect are appended to the known players
    in order, and the i-th of them is told player id (n + i) mod 4, so a
    fifth connection is given the id of the first. *)
Theorem X1_connections_round_robin (socks : list socket) (s : ServerEngine) :
  knownPlayers (connect socks s) = knownPlayers s ++ socks
  ∧ playerId (connect socks s) = (playerId s + length socks)%nat
  ∧ outbox (connect socks s)
    = outbox s
      ++ imap (λ i sock, (sock, CONNECTION_ESTABLISHED ((playerId s + i) mod 4))) socks.
Proof.
  unfold connect. revert s.
  induction socks as [|sock socks IH]; intros s; cbn [fold_left].
  - cbn [imap length]. by rewrite !app_nil_r, Nat.add_0_r.
  - destruct (IH (onConnection sock s)) as (Hplayers & Hcount & Hsent).
    rewrite Hplayers, Hcount, Hsent.
    assert (Hk : knownPlayers (onConnection sock s) = knownPlayers s ++ [sock]) by done.
    assert (Hp : playerId (onConnection sock s) = S (playerId s)) by done.
    assert (Ho : outbox (onConnection sock s)
                 = outbox s ++ [(sock, CONNECTION_ESTABLISHED (playerId s mod 4))])
      by done.
    rewrite Hk, Hp, Ho, <- !app_assoc. cbn [app length].
    split; [done|]. split; [lia|].
    rewrite imap_cons, Nat.add_0_r. do 2 f_equal.
    apply imap_ext. intros i x _. unfold compose.
    by replace (S (playerId s) + i)%nat with (playerId s + S i)%nat by lia.
Qed.

(** X2.  A broadcast sends one SNAPSHOT message to each known player, in
    connection order, all with the current frame, the snapshot, and the
    snapshot's score and target score beside it; with no player connected
    nothing is sent; and the broadcast changes nothing else. *)
Theorem X2_broadcast_reaches_every_player (snap : Snapshot) (s : ServerEngine) :
  outbox (broadcastSnapshot snap s)
  = outbox s
    ++ map (λ sock, (sock, SNAPSHOT (frame s) (Serializer_encode snap)
                             (snap_score snap) (snap_targetScore snap)))
         (knownPlayers s)
  ∧ same_but_outbox s (broadcastSnapshot snap s).
Proof. split; [apply broadcastSnapshot_outbox|apply broadcastSnapshot_same]. Qed.

(** X3.  A tick sends every known player one message: it carries the frame
    number the tick has just counted, the snapshot of the state the tick
    simulated its way to, and that state's score map and target score. *)
Theorem X3_tick_sends_the_new_frame (K : Constants) (o : EngineOutcome)
    (s : ServerEngine) :
  outbox (tick K o s)
  = outbox s
    ++ map (λ sock, (sock, snapshot_message (frame s + 1) (simulate o s)))
         (knownPlayers s).
Proof.
  rewrite tick_unfold. cbn [set_nextTimestep outbox].
  rewrite broadcastSnapshot_outbox, simulate_frame.
  by destruct (simulate_io o s) as (-> & -> & _).
Qed.

(** X4.  [detectWinner] leaves the winner flag set exactly when it was set
    already or some slot of the score map holds a number that has reached
    the target score; a NaN slot never wins.  Scores, target and frame are
    not touched. *)
Theorem X4_detectWinner_decides_by_slots (s : ServerEngine) :
  (winner (detectWinner s) = true
   ↔ winner s = true
     ∨ ∃ (k : string) (n : Z), score s !! k = Some (Int n) ∧ targetScore s ≤ n)
  ∧ score (detectWinner s) = score s
  ∧ targetScore (detectWinner s) = targetScore s
  ∧ frame (detectWinner s) = frame s.
Proof.
  split; [|unfold detectWinner; by_cases].
  unfold detectWinner.
  destruct (existsb _ _) eqn:Hex.
  - assert (Hset : winner (stopGame (set_winner true s)) = true) by by_cases.
    rewrite Hset. split; [|done]. intros _. right.
    apply existsb_exists in Hex as (sc & Hin & Hge).
    apply list_elem_of_In, list_elem_of_fmap in Hin as ([k sc'] & -> & Hk).
    apply elem_of_map_to_list in Hk. simpl in Hge.
    destruct sc' as [n|]; [|done]. exists k, n. split; [done|].
    by apply Z.leb_le.
  - split; [by left|]. intros [Hwin|(k & n & Hk & Hn)]; [done|].
    exfalso. apply not_true_iff_false in Hex. apply Hex.
    apply existsb_exists. exists (Int n). split; [|by apply Z.leb_le].
    apply list_elem_of_In, list_elem_of_fmap. exists (k, Int n).
    split; [done|]. by apply elem_of_map_to_list.
Qed.

(** X5.  Whenever the loop of [startGame] ends, [startGame] has scheduled
    itself once more: exactly one callback is added to the pending ones,
    in every state, with a winner declared or without, and a declared
    winner stays declared. *)
Theorem X5_startGame_schedules_itself (K : Constants) (now : Q)
    (readings : list (Q * EngineOutcome)) (s s' : ServerEngine) :
  startGame K now readings s = Some s' →
  immediates s' = S (immediates s) ∧ (winner s = true → winner s' = true).
Proof.
  intros Hrun. split.
  - unfold startGame in Hrun.
    destruct (startGame_loop K readings _) as [s1|] eqn:Hloop; [|done].
    simpl in Hrun. injection Hrun as <-.
    apply startGame_loop_immediates in Hloop. simpl in *. by rewrite Hloop.
  - intros Hwin. by destruct (startGame_latched K _ _ _ _ Hwin Hrun).
Qed.

Lemma X5_startGame_schedules_itself_witness :
  immediates (play sudden_death (opening ++ aftermath))
  = S (immediates (set_immediates 0 (play sudden_death (opening ++ [EInterval 14]))))
  ∧ (winner (set_immediates 0 (play sudden_death (opening ++ [EInterval 14]))) = true →
     winner (play sudden_death (opening ++ aftermath)) = true).
Proof.
  apply (X5_startGame_schedules_itself sudden_death 1040
           [(1040, still); (1041, still)]%Q).
  vm_compute. reflexivity.
Defined.

(** X6.  A burst adds TIMESTEP to the deadline once per iteration, each
    sum rounded as the double it is: when the loop ends after n iterations
    the deadline is the old one with n such additions applied, the clock
    reading that ended the loop is not past it, and every reading before
    was past the deadline of its moment. *)
Theorem X6_burst_advances_the_deadline (K : Constants)
    (readings : list (Q * EngineOutcome)) (s s' : ServerEngine) :
  startGame_loop K readings s = Some s' →
  nextTimestep s' = deadline K (iterations K readings s) (nextTimestep s)
  ∧ (∃ (now : Q) (o : EngineOutcome),
       readings !! iterations K readings s = Some (now, o)
       ∧ time_gt now (nextTimestep s') = false)
  ∧ ∀ i : nat, (i < iterations K readings s)%nat →
      ∃ (now : Q) (o : EngineOutcome),
        readings !! i = Some (now, o)
        ∧ time_gt now (deadline K i (nextTimestep s)) = true.
Proof.
  revert s. induction readings as [|[now o] rest IH]; intros s;
    cbn [startGame_loop iterations]; [done|].
  destruct (time_gt now (nextTimestep s)) eqn:Hgt.
  - intros Hrest. destruct (tick_io K o s) as (_ & _ & Hnext).
    destruct (IH _ Hrest) as (Hdue & (now' & o' & Hlook & Hle) & Hearlier).
    rewrite Hnext in Hdue, Hearlier.
    split; [done|]. split; [by exists now', o'|].
    intros [|i] Hi.
    + by exists now, o.
    + apply Hearlier. lia.
  - intros [= <-]. split; [done|]. split; [by exists now, o|].
    intros i Hi. lia.
Qed.

(** A hundred milliseconds behind with a timestep of 16.666666666666668:
    six additions reach 199.99999999999997, still short of the clock's 200,
    so the burst has seven iterations and ends due at 216.66666666666663. *)
Lemma X6_burst_advances_the_deadline_witness :
  (iterations demo stalled_clock overdue = 7%nat
   ∧ deadline demo 6 (Finite 100) = Finite (7036874417766399 # 35184372088832)
   ∧ deadline demo 7 (Finite 100) = Finite (1905820154811733 # 8796093022208))
  ∧ (nextTimestep (default overdue (startGame_loop demo stalled_clock overdue))
     = deadline demo (iterations demo stalled_clock overdue) (nextTimestep overdue)
     ∧ (∃ (now : Q) (o : EngineOutcome),
          stalled_clock !! iterations demo stalled_clock overdue = Some (now, o)
          ∧ time_gt now (nextTimestep
                           (default overdue (startGame_loop demo stalled_clock overdue)))
            = false)
     ∧ ∀ i : nat, (i < iterations demo stalled_clock overdue)%nat →
         ∃ (now : Q) (o : EngineOutcome),
           stalled_clock !! i = Some (now, o)
           ∧ time_gt now (deadline demo i (nextTimestep overdue)) = true).
Proof.
  split.
  - vm_compute. repeat split.
  - apply (X6_burst_advances_the_deadline demo stalled_clock overdue).
    vm_compute. reflexivity.
Defined.

(** X7.  After a tick the input buffer is empty, whatever was in it, and
    the chips registered after the tick are among those registered once
    the tick has taken its input: the physics step and what follows only
    remove chips.  A tick that finds the buffer empty registers none. *)
Theorem X7_tick_drains_the_buffer (K : Constants) (o : EngineOutcome)
    (s : ServerEngine) :
  inputBuffer (tick K o s) = []
  ∧ chips (tick K o s) ⊆ chips (intake s)
  ∧ (inputBuffer s = [] → chips (tick K o s) ⊆ chips s).
Proof.
  assert (Hchips : chips (tick K o s) = chips (Engine_update o (intake s))).
  { rewrite tick_unfold. cbn [set_nextTimestep chips].
    destruct (broadcastSnapshot_same (snapshot_of (simulate o s)) (simulate o s))
      as (_ & _ & -> & _).
    unfold simulate. by destruct (referee_store (Engine_update o (intake s))) as (_ & -> & _). }
  assert (Hsub : chips (tick K o s) ⊆ chips (intake s)).
  { rewrite Hchips. unfold Engine_update. etrans; [apply onCollisionStart_chips_sub|].
    done. }
  split; [|split; [done|]].
  - rewrite tick_unfold. cbn [set_nextTimestep inputBuffer].
    destruct (broadcastSnapshot_same (snapshot_of (simulate o s)) (simulate o s))
      as (_ & _ & _ & _ & _ & _ & _ & ->).
    unfold simulate. rewrite referee_inputBuffer. unfold Engine_update.
    rewrite <- (intake_inputBuffer s).
    apply (onCollisionStart_ind
             (λ s', inputBuffer s' = inputBuffer (intake s))).
    + intros pair s' Hs'. by rewrite collide_inputBuffer.
    + done.
  - intros Hempty. etrans; [exact Hsub|].
    unfold intake. simpl. rewrite Hempty. simpl. done.
Qed.

(** ** Scoring one contact *)


Lemma collide_peg_owner bodyA bodyB s :
  label bodyA = "peg" →
  ownerId (heap (collide (bodyA, bodyB) s) !!! parentObject bodyA)
  = ownerId (heap s !!! parentObject bodyB).
Proof.
  intros Hpeg. destruct (collide_peg bodyA bodyB s Hpeg) as (-> & _).
  by rewrite lookup_total_insert_eq.
Qed.


Lemma total_score_same s s' :
  (∀ q : Z, points s' q = points s q) → total_score s' = total_score s.
Proof. intros Hall. unfold total_score. by rewrite !Hall. Qed.





(** X10.  A contact between a peg and a body whose parent object names the
    peg's current owner changes no score and leaves the peg with that
    owner, with or without a winner. *)
Theorem X10_own_peg_scores_nothing (bodyA bodyB : Body) (s : ServerEngine) :
  label bodyA = "peg" →
  ownerId (heap s !!! parentObject bodyB) = ownerId (heap s !!! parentObject bodyA) →
  score (collide (bodyA, bodyB) s) = score s
  ∧ ownerId (heap (collide (bodyA, bodyB) s) !!! parentObject bodyA)
    = ownerId (heap s !!! parentObject bodyA).
Proof.
  intros Hpeg Hsame. split; [|by rewrite collide_peg_owner].
  unfold collide, ground_contact, owner_contact, score_contact.
  simpl. rewrite Hpeg. simpl.
  destruct (String.eqb (label bodyB) "chip" && negb (winner s)); [|done].
  simpl. by rewrite (updateScore_score bodyA bodyB s _ _ eq_refl Hsame), decide_True.
Qed.

Lemma X10_own_peg_scores_nothing_witness :
  score (collide (peg_body 4, chip_body 12) peg_taken) = score peg_taken
  ∧ ownerId (heap (collide (peg_body 4, chip_body 12) peg_taken)
               !!! parentObject (peg_body 4))
    = ownerId (heap peg_taken !!! parentObject (peg_body 4)).
Proof.
  apply (X10_own_peg_scores_nothing (peg_body 4) (chip_body 12) peg_taken);
    by vm_compute.
Defined.

(** ** Spawning and despawning *)

(** X11.  Two buffered commands with the same combined key are both
    spawned, but the registry keeps only the second under that key: the
    first chip's object and body exist, its body is in the physics world,
    and no registry entry refers to it. *)
Theorem X11_same_key_keeps_the_later_chip (c1 c2 : Input) (s : ServerEngine) :
  registry_ok s →
  inputBuffer s = [c1; c2] → input_key c1 = input_key c2 →
  chips (processInputBuffer s) = <[input_key c2 := S (S (nextRef s))]> (chips s)
  ∧ heap (processInputBuffer s) !!! nextRef s
    = {| oid := input_id c1; ownerId := input_ownerId c1; body := S (nextRef s) |}
  ∧ S (nextRef s) ∈ world (processInputBuffer s)
  ∧ S (S (S (nextRef s))) ∈ world (processInputBuffer s)
  ∧ ∀ k : string, chips (processInputBuffer s) !! k ≠ Some (nextRef s).
Proof.
  intros Hreg Hbuffer Hkey. unfold processInputBuffer. rewrite Hbuffer.
  cbn [drain].
  destruct (spawn_buffered c1 [c2] s) as (Hh1 & Hc1 & Hw1 & Hn1 & _).
  set (s1 := spawn c1 (set_inputBuffer [c2] s)) in *. clearbody s1.
  destruct (spawn_buffered c2 [] s1) as (Hh2 & Hc2 & Hw2 & Hn2 & _).
  set (s2 := spawn c2 (set_inputBuffer [] s1)) in *. clearbody s2.
  rewrite Hn1 in Hh2, Hc2, Hw2.
  assert (Hchips : chips s2 = <[input_key c2 := S (S (nextRef s))]> (chips s)).
  { by rewrite Hc2, Hc1, Hkey, insert_insert_eq. }
  split; [done|]. split; [|split; [|split]].
  - rewrite Hh2, lookup_total_insert_ne by lia.
    by rewrite Hh1, lookup_total_insert_eq.
  - rewrite Hw2, Hw1. apply elem_of_union. right. apply elem_of_union. left.
    by apply elem_of_singleton.
  - rewrite Hw2. apply elem_of_union. left. by apply elem_of_singleton.
  - intros k Hk. rewrite Hchips, lookup_insert in Hk. case_decide.
    + injection Hk as Hk. lia.
    + destruct (Hreg k _ Hk) as (_ & _ & Hlt). lia.
Qed.

Lemma X11_same_key_keeps_the_later_chip_witness :
  chips (processInputBuffer (onNewChip (drop 12 3) (onNewChip (drop 1 23) board)))
  = <[input_key (drop 12 3) :=
        S (S (nextRef (onNewChip (drop 12 3) (onNewChip (drop 1 23) board))))]>
      (chips (onNewChip (drop 12 3) (onNewChip (drop 1 23) board))).
Proof.
  apply (X11_same_key_keeps_the_later_chip (drop 1 23) (drop 12 3)
           (onNewChip (drop 12 3) (onNewChip (drop 1 23) board))).
  - apply onNewChip_ok, onNewChip_ok. apply (init_ok demo new_ServerEngine).
  - vm_compute. reflexivity.
  - vm_compute. reflexivity.
Defined.

(** X12.  Despawning is idempotent: handling the same ground contact a
    second time leaves the state exactly as the first time left it. *)
Theorem X12_ground_contact_is_idempotent (ground chipBody : Body) (s : ServerEngine) :
  label ground = "ground" →
  collide (ground, chipBody) (collide (ground, chipBody) s)
  = collide (ground, chipBody) s.
Proof.
  intros Hground.
  unfold collide, ground_contact, owner_contact, score_contact.
  cbn [fst snd]. rewrite Hground.
  change (String.eqb "ground" "peg") with false.
  change (String.eqb "ground" "ground") with true.
  cbn [andb]. unfold set_chips, World_remove, set_world. simpl. f_equal.
  - apply delete_delete_eq.
  - apply set_eq. intros h. rewrite !elem_of_difference. tauto.
Qed.

Lemma X12_ground_contact_is_idempotent_witness :
  collide (ground_body 0, chip_body 12)
    (collide (ground_body 0, chip_body 12) (intake dropped))
  = collide (ground_body 0, chip_body 12) (intake dropped).
Proof.
  apply (X12_ground_contact_is_idempotent (ground_body 0) (chip_body 12)).
  reflexivity.
Defined.

(** ** The board *)

Section BoardLayout.

Context (K : Constants).

(** The id the inner loop of [_createPegs] ends with, for the columns from
    [a] up to the last one. *)
Lemma createPegs_cols_count row a n i s :
  (a + n = COLS K)%nat →
  (createPegs_cols K row (seq a n) i s).1
  = (i + if (row mod 2 =? 1)%nat then n - 1 else n)%nat.
Proof.
  revert a i s. induction n as [|n IH]; intros a i s Han; cbn [seq createPegs_cols].
  { cbn [fst]. destruct (row mod 2 =? 1)%nat; lia. }
  destruct (row mod 2 =? 1)%nat eqn:Hodd; cbn [andb].
  - destruct (a =? COLS K - 1)%nat eqn:Hlast.
    + apply Nat.eqb_eq in Hlast. cbn [fst]. lia.
    + apply Nat.eqb_neq in Hlast.
      destruct (new_Peg _ _ _ s) as [peg s1].
      rewrite IH by lia. lia.
  - destruct (new_Peg _ _ _ s) as [peg s1].
    rewrite IH by lia. lia.
Qed.

Lemma createPegs_row_count row i s :
  (createPegs_cols K row (seq 1 (COLS K - 1)) i s).1 = (i + row_pegs K row)%nat.
Proof.
  unfold row_pegs. destruct (COLS K) as [|c] eqn:Hcols.
  - cbn [Nat.sub seq createPegs_cols fst]. destruct (row mod 2 =? 1)%nat; lia.
  - replace (S c - 1)%nat with c by lia.
    pose proof (createPegs_cols_count row 1 c i s) as Hcount.
    rewrite Hcols in Hcount. rewrite <- Hcols, Hcount by lia.
    destruct (row mod 2 =? 1)%nat; lia.
Qed.

Lemma createPegs_rows_count rows i s :
  pegs_ok s → length (pegs s) = i →
  length (pegs (createPegs_rows K rows i s)) = (i + sum_list (row_pegs K <$> rows))%nat.
Proof.
  revert i s.
  induction rows as [|row rows IH]; intros i s Hok Hlen; cbn [createPegs_rows].
  { cbn [fmap list_fmap sum_list sum_list_with]. lia. }
  pose proof (createPegs_cols_ok K row (seq 1 (COLS K - 1)) i s Hok Hlen) as Hcols.
  pose proof (createPegs_row_count row i s) as Hcount.
  destruct (createPegs_cols K row _ i s) as [i' s1].
  destruct Hcols as (Hok1 & Hlen1 & _). cbn [fst] in Hcount.
  rewrite (IH _ _ Hok1 Hlen1), Hcount, fmap_cons.
  cbn [sum_list sum_list_with]. unfold id. lia.
Qed.

Lemma set_playerId_pegs n s : pegs (set_playerId n s) = pegs s.
Proof. done. Qed.

Lemma init_pegs s :
  pegs (init K s)
  = pegs (_createPegs K (_createBucketWalls K (_createWalls
            (initializeScore K (set_winner false (set_pegs [] (set_chips ∅ s))))))).
Proof.
  unfold init, createEnvironment, _createTriangles.
  rewrite set_playerId_pegs.
  match goal with
  | |- pegs (fold_left _ _ ?s3) = _ =>
      destruct (new_statics_store (seq 0 6) s3) as (_ & _ & Hp & _); exact Hp
  end.
Qed.

(** Adding a peg keeps the pegs there are unowned and in the world. *)
Lemma add_peg_unowned (x y : Q) s :
  pegs_unowned s →
  let '(peg, s1) := new_Peg (Z.of_nat (length (pegs s))) x y s in
  pegs_unowned
    (addToEngine peg (set_pegs (array_set (length (pegs s)) peg (pegs s1)) s1)).
Proof.
  intros Hun. unfold new_Peg, new_Obj, addToEngine, World_add. simpl.
  rewrite array_set_end, lookup_total_insert_eq. simpl.
  intros i l Hi. simpl in Hi |- *.
  destruct (decide (i < length (pegs s))%nat) as [Hlt|Hge].
  - rewrite lookup_app_l in Hi by done.
    destruct (Hun i l Hi) as (Hnull & Hworld & Hl).
    rewrite lookup_total_insert_ne by lia.
    split; [done|]. split; [|lia].
    apply elem_of_union. by right.
  - rewrite lookup_app_r in Hi by lia.
    destruct (i - length (pegs s))%nat; [|by destruct n].
    injection Hi as <-. rewrite lookup_total_insert_eq. simpl.
    split; [done|]. split; [|lia].
    apply elem_of_union. left. by apply elem_of_singleton.
Qed.

Lemma createPegs_cols_unowned row cols i s :
  pegs_unowned s → length (pegs s) = i →
  pegs_unowned (createPegs_cols K row cols i s).2.
Proof.
  revert i s.
  induction cols as [|col cols IH]; intros i s Hun Hlen; cbn [createPegs_cols];
    [done|].
  destruct ((row mod 2 =? 1)%nat && (col =? COLS K - 1)%nat); [done|].
  subst i.
  match goal with
  | |- context [new_Peg _ ?x ?y s] =>
      pose proof (add_peg_unowned x y s Hun) as Hadd;
      assert (Hlen' : let '(peg, s1) := new_Peg (Z.of_nat (length (pegs s))) x y s in
                      length (pegs (addToEngine peg
                        (set_pegs (array_set (length (pegs s)) peg (pegs s1)) s1)))
                      = S (length (pegs s)))
  end.
  { unfold new_Peg, new_Obj, addToEngine, World_add. simpl.
    rewrite array_set_end, length_app. simpl. lia. }
  destruct (new_Peg _ _ _ s) as [peg s1]. by apply IH.
Qed.

Lemma createPegs_rows_unowned rows i s :
  pegs_ok s → pegs_unowned s → length (pegs s) = i →
  pegs_unowned (createPegs_rows K rows i s).
Proof.
  revert i s.
  induction rows as [|row rows IH]; intros i s Hok Hun Hlen; cbn [createPegs_rows];
    [done|].
  pose proof (createPegs_cols_ok K row (seq 1 (COLS K - 1)) i s Hok Hlen) as Hcols.
  pose proof (createPegs_cols_unowned row (seq 1 (COLS K - 1)) i s Hun Hlen) as Hun1.
  destruct (createPegs_cols K row _ i s) as [i' s1].
  destruct Hcols as (Hok1 & Hlen1 & _). by apply IH.
Qed.

Lemma new_statics_unowned {A : Type} (l : list A) s :
  pegs_unowned s → pegs_unowned (fold_left (λ s _, new_static s) l s).
Proof.
  revert s. induction l as [|x l IH]; intros s Hun; simpl; [done|].
  apply IH. intros i p Hi. destruct (Hun i p Hi) as (Hnull & Hworld & Hl).
  unfold new_static, World_add; simpl. split; [done|]. split; [|lia].
  apply elem_of_union. by right.
Qed.

Lemma createPegs_unowned s : pegs s = [] → pegs_unowned (_createPegs K s).
Proof.
  intros Hempty. unfold _createPegs. apply createPegs_rows_unowned.
  - intros i Hi. rewrite Hempty in Hi. simpl in Hi. lia.
  - intros i l Hi. by rewrite Hempty in Hi.
  - by rewrite Hempty.
Qed.

Lemma createTriangles_unowned s : pegs_unowned s → pegs_unowned (_createTriangles s).
Proof. apply new_statics_unowned. Qed.

Lemma set_playerId_unowned n s : pegs_unowned s → pegs_unowned (set_playerId n s).
Proof. intros Hun i l Hi. exact (Hun i l Hi). Qed.

Lemma createEnvironment_unowned s :
  pegs s = [] → pegs_unowned (createEnvironment K s).
Proof.
  intros Hempty. unfold createEnvironment.
  apply createTriangles_unowned, createPegs_unowned.
  destruct (createWalls_store K s) as [_ ->]. exact Hempty.
Qed.

Lemma init_unowned s : pegs_unowned (init K s).
Proof.
  unfold init. apply set_playerId_unowned, createEnvironment_unowned. done.
Qed.

End BoardLayout.

(** X13.  [init] builds a board with COLS - 1 pegs on every even row and
    COLS - 2 on every odd row, whatever state it starts from: the peg array
    has the sum of these over the ROWS rows, and the snapshot lists as
    many. *)
Theorem X13_board_has_its_pegs (K : Constants) (s : ServerEngine) :
  length (pegs (init K s)) = sum_list (row_pegs K <$> seq 0 (ROWS K))
  ∧ length (snap_pegs (snapshot_of (init K s)))
    = sum_list (row_pegs K <$> seq 0 (ROWS K)).
Proof.
  assert (Hcount : length (pegs (init K s))
                   = sum_list (row_pegs K <$> seq 0 (ROWS K))).
  { rewrite init_pegs. unfold _createPegs.
    destruct (createWalls_store K
                (initializeScore K (set_winner false (set_pegs [] (set_chips ∅ s)))))
      as [_ Hp].
    assert (Hempty : pegs (_createBucketWalls K (_createWalls
              (initializeScore K (set_winner false (set_pegs [] (set_chips ∅ s))))))
              = []) by (by rewrite Hp).
    rewrite (createPegs_rows_count K (seq 0 (ROWS K)) 0%nat); [lia| |by rewrite Hempty].
    intros i Hi. rewrite Hempty in Hi. simpl in Hi. lia. }
  split; [done|].
  unfold snapshot_of, generateSnapshot. cbn [fst snap_pegs].
  by rewrite length_map.
Qed.

(** X14.  The snapshot of the state [init] leaves shows a fresh match:
    every peg is listed with its id and no owner, no chip is listed, the
    four players have score 0, no winner is declared and the target score
    is the constant. *)
Theorem X14_first_snapshot_is_a_fresh_match (K : Constants) (s : ServerEngine) :
  snap_pegs (snapshot_of (init K s))
  = (λ i : nat, Some {| peg_id := Z.of_nat i; peg_ownerId := VNull |})
      <$> seq 0 (length (pegs (init K s)))
  ∧ snap_chips (snapshot_of (init K s)) = []
  ∧ snap_score (snapshot_of (init K s))
    = <["0" := Int 0]> (<["1" := Int 0]> (<["2" := Int 0]> (<["3" := Int 0]> ∅)))
  ∧ snap_winner (snapshot_of (init K s)) = false
  ∧ snap_targetScore (snapshot_of (init K s)) = TARGET_SCORE K.
Proof.
  destruct (init_ok K s) as (Hok & _ & Hchips).
  pose proof (init_unowned K s) as Hun.
  destruct (init_schedule K s) as (_ & Htarget & _ & _ & _ & Hwin).
  assert (Hscore : score (init K s)
                   = <["0" := Int 0]> (<["1" := Int 0]> (<["2" := Int 0]>
                       (<["3" := Int 0]> ∅)))).
  { unfold init.
    by pose proof (same_schedule_trans _ _ _
                (createEnvironment_schedule K
                   (initializeScore K (set_winner false (set_pegs [] (set_chips ∅ s)))))
                (set_playerId_schedule 0%nat _))
      as (_ & _ & _ & _ & _ & _ & ->). }
  unfold snapshot_of, generateSnapshot.
  cbn [fst snap_pegs snap_chips snap_score snap_winner snap_targetScore].
  rewrite Hchips, Hscore, Hwin, Htarget.
  split; [|by rewrite map_to_list_empty].
  set (s0 := init K s) in *. clearbody s0.
  apply list_eq. intros i. rewrite !list_lookup_fmap.
  destruct (decide (i < length (pegs s0))%nat) as [Hlt|Hge].
  - destruct (Hok i Hlt) as (l & Hl & Hid & _).
    destruct (Hun i l Hl) as (Hnull & _).
    rewrite Hl, lookup_seq_lt by done. simpl. by rewrite Hid, Hnull.
  - rewrite (lookup_ge_None_2 (pegs s0)) by lia.
    rewrite (lookup_ge_None_2 (seq _ _)); [done|]. rewrite length_seq. lia.
Qed.

(** X15.  A snapshot lists exactly the registered chips: as many entries
    as the registry has, and an entry is listed if and only if it is the
    id, owner, position and angle of the object some registry entry refers
    to.  Score, winner flag and target score are the state's. *)
Theorem X15_snapshot_lists_the_registry (s : ServerEngine) :
  length (snap_chips (snapshot_of s)) = size (chips s)
  ∧ (∀ info : ChipInfo,
       info ∈ snap_chips (snapshot_of s)
       ↔ ∃ (k : string) (l : loc),
           chips s !! k = Some l
           ∧ info = {| chip_id := oid (heap s !!! l);
                       chip_ownerId := ownerId (heap s !!! l);
                       chip_x := position_x (kinematics s !!! body (heap s !!! l));
                       chip_y := position_y (kinematics s !!! body (heap s !!! l));
                       chip_angle := angle (kinematics s !!! body (heap s !!! l)) |})
  ∧ snap_score (snapshot_of s) = score s
  ∧ snap_winner (snapshot_of s) = winner s
  ∧ snap_targetScore (snapshot_of s) = targetScore s.
Proof.
  unfold snapshot_of, generateSnapshot.
  cbn [fst snap_chips snap_score snap_winner snap_targetScore].
  split; [by rewrite length_map, length_fmap, length_map_to_list|].
  split; [|done].
  intros info. split.
  - intros (l & -> & Hl)%list_elem_of_fmap.
    apply list_elem_of_fmap in Hl as ([k l'] & -> & Hkl).
    apply elem_of_map_to_list in Hkl. by exists k, l'.
  - intros (k & l & Hk & ->). apply list_elem_of_fmap. exists l. split; [done|].
    apply list_elem_of_fmap. exists (k, l). split; [done|].
    by apply elem_of_map_to_list.
Qed.

(** ** Batches *)

Lemma collide_heap_other pair s (l : loc) :
  ¬ (label pair.1 = "peg" ∧ parentObject pair.1 = l) →
  heap (collide pair s) !!! l = heap s !!! l.
Proof.
  destruct pair as [bodyA bodyB]. simpl. intros Hother.
  destruct (decide (label bodyA = "peg")) as [Hpeg|Hpeg].
  { destruct (collide_peg bodyA bodyB s Hpeg) as (-> & _).
    rewrite lookup_total_insert_ne; [done|]. intros Heq. by apply Hother. }
  destruct (decide (label bodyA = "ground")) as [Hground|Hground].
  { by destruct (collide_ground bodyA bodyB s Hground) as (-> & _). }
  by rewrite collide_other.
Qed.

(** X16.  Within a batch a peg belongs to whoever touched it last: after
    the whole batch the peg of a pair is owned by the owner that pair's
    second body named when the pair was handled, provided no later pair of
    the batch has that peg as its first body. *)
Theorem X16_last_touch_owns_the_peg (before after : list (Body * Body))
    (bodyA bodyB : Body) (s : ServerEngine) :
  label bodyA = "peg" →
  Forall (λ pair, ¬ (label pair.1 = "peg" ∧ parentObject pair.1 = parentObject bodyA))
    after →
  ownerId (heap (onCollisionStart (before ++ (bodyA, bodyB) :: after) s)
             !!! parentObject bodyA)
  = ownerId (heap (onCollisionStart before s) !!! parentObject bodyB).
Proof.
  intros Hpeg Hafter. rewrite onCollisionStart_app, onCollisionStart_cons.
  rewrite <- (collide_peg_owner bodyA bodyB (onCollisionStart before s) Hpeg).
  generalize (collide (bodyA, bodyB) (onCollisionStart before s)). intros s1.
  revert s1. induction Hafter as [|pair after Hpair Hafter IH]; intros s1; [done|].
  rewrite onCollisionStart_cons, IH. by rewrite collide_heap_other.
Qed.

Lemma X16_last_touch_owns_the_peg_witness :
  ownerId (heap (onCollisionStart
                   ([(peg_body 4, chip_body 12)] ++ (peg_body 4, chip_body 14)
                      :: [(ground_body 0, chip_body 12)]) two_chips)
             !!! parentObject (peg_body 4))
  = ownerId (heap (onCollisionStart [(peg_body 4, chip_body 12)] two_chips)
               !!! parentObject (chip_body 14)).
Proof.
  apply (X16_last_touch_owns_the_peg [(peg_body 4, chip_body 12)]
           [(ground_body 0, chip_body 12)] (peg_body 4) (chip_body 14) two_chips).
  - reflexivity.
  - apply Forall_cons. split; [|apply Forall_nil_2].
    intros [Hlabel _]. discriminate Hlabel.
Defined.

(** X17.  A ground contact deletes whatever the registry holds under the
    landing chip's combined key, also when that entry refers to another
    chip: the other chip is then in no snapshot key any more while its
    body, if it was in the physics world, still is. *)
Theorem X17_landing_chip_evicts_its_key_holder (ground chipBody : Body)
    (s : ServerEngine) (other : loc) :
  label ground = "ground" →
  chips s !! combinedId (ownerId (heap s !!! parentObject chipBody))
               (oid (heap s !!! parentObject chipBody)) = Some other →
  body (heap s !!! other) ≠ body (heap s !!! parentObject chipBody) →
  body (heap s !!! other) ∈ world s →
  chips (collide (ground, chipBody) s)
    !! combinedId (ownerId (heap s !!! parentObject chipBody))
         (oid (heap s !!! parentObject chipBody)) = None
  ∧ size (chips (collide (ground, chipBody) s)) = pred (size (chips s))
  ∧ body (heap (collide (ground, chipBody) s) !!! other)
    ∈ world (collide (ground, chipBody) s).
Proof.
  intros Hground Hheld Hbody Hworld.
  destruct (collide_ground ground chipBody s Hground) as (-> & -> & -> & _).
  split; [apply lookup_delete_eq|]. split.
  - apply map_size_delete_Some. by exists other.
  - apply elem_of_difference. split; [done|].
    intros Heq%elem_of_singleton. done.
Qed.

Lemma X17_landing_chip_evicts_its_key_holder_witness :
  chips (collide (ground_body 0, chip_body 12)
           (processInputBuffer (onNewChip (drop 12 3) (onNewChip (drop 1 23) board))))
    !! combinedId
         (ownerId (heap (processInputBuffer
                           (onNewChip (drop 12 3) (onNewChip (drop 1 23) board)))
                     !!! parentObject (chip_body 12)))
         (oid (heap (processInputBuffer
                       (onNewChip (drop 12 3) (onNewChip (drop 1 23) board)))
                 !!! parentObject (chip_body 12))) = None
  ∧ size (chips (collide (ground_body 0, chip_body 12)
                   (processInputBuffer
                      (onNewChip (drop 12 3) (onNewChip (drop 1 23) board)))))
    = pred (size (chips (processInputBuffer
                           (onNewChip (drop 12 3) (onNewChip (drop 1 23) board)))))
  ∧ body (heap (collide (ground_body 0, chip_body 12)
                  (processInputBuffer
                     (onNewChip (drop 12 3) (onNewChip (drop 1 23) board))))
            !!! 14%nat)
    ∈ world (collide (ground_body 0, chip_body 12)
               (processInputBuffer
                  (onNewChip (drop 12 3) (onNewChip (drop 1 23) board)))).
Proof.
  apply (X17_landing_chip_evicts_its_key_holder (ground_body 0) (chip_body 12)
           (processInputBuffer (onNewChip (drop 12 3) (onNewChip (drop 1 23) board)))
           14%nat).
  - reflexivity.
  - vm_compute. reflexivity.
  - vm_compute. intros Heq. discriminate Heq.
  - refine (bool_decide_unpack _ _). vm_compute. exact I.
Defined.
